(** * Flashcard maker: response parsing and view state

    A shallow embedding of [index.tsx]: the text parsing done by the
    "generate" click handler (the key-value path and the free-form path)
    and the view-state handlers (mode switch, navigation, card deletion,
    shuffle), followed by the properties of the specification that were
    checked against them. *)

From Stdlib Require Import ZArith List Bool Lia Permutation.
From Stdlib Require Import Strings.String Strings.Ascii.
From stdpp Require Import base option list gmap.

Local Open Scope Z_scope.
Local Open Scope list_scope.

(** ** JavaScript strings

    A JavaScript string is a sequence of UTF-16 code units.  Only the
    string methods used by the parser are embedded, and [split],
    [includes] and [join] only for the one-unit separators the source
    uses (a colon and a line feed). *)

Abbreviation jsstring := (list N).

Module Js.

(** An ASCII literal as a JavaScript string. *)
Definition lit (s : string) : jsstring :=
  List.map N_of_ascii (list_ascii_of_string s).

Definition colon : N := 58%N.
Definition newline : N := 10%N.

(** [WhiteSpace] and [LineTerminator] of ECMAScript: what
    [String.prototype.trim] strips. *)
Definition isWhiteSpace (c : N) : bool :=
  ((c =? 9) || (c =? 10) || (c =? 11) || (c =? 12) || (c =? 13)
   || (c =? 32) || (c =? 160) || (c =? 5760)
   || ((8192 <=? c) && (c <=? 8202))
   || (c =? 8232) || (c =? 8233) || (c =? 8239) || (c =? 8287)
   || (c =? 12288) || (c =? 65279))%N.

Fixpoint trimStart (s : jsstring) : jsstring :=
  match s with
  | c :: s' => if isWhiteSpace c then trimStart s' else s
  | [] => []
  end.

Definition trimEnd (s : jsstring) : jsstring :=
  rev (trimStart (rev s)).

(** [s.trim()] *)
Definition trim (s : jsstring) : jsstring := trimEnd (trimStart s).

(** [s !== ''] *)
Definition nonEmpty (s : jsstring) : bool :=
  match s with [] => false | _ :: _ => true end.

(** [s.includes(c)] for a one-unit needle. *)
Definition includes (c : N) (s : jsstring) : bool :=
  existsb (N.eqb c) s.

(** [s.split(sep)] for a one-unit separator: never an empty array. *)
Fixpoint split (sep : N) (s : jsstring) : list jsstring :=
  match s with
  | [] => [[]]
  | c :: s' =>
      if (c =? sep)%N then [] :: split sep s'
      else match split sep s' with
           | p :: ps => (c :: p) :: ps
           | [] => [[c]]
           end
  end.

(** [parts.join(sep)] *)
Fixpoint join (sep : N) (parts : list jsstring) : jsstring :=
  match parts with
  | [] => []
  | [p] => p
  | p :: ps => p ++ sep :: join sep ps
  end.

(** [parts[0]] of an array of strings; [split] never returns an empty
    array, so the default is never used by the parser. *)
Definition first (parts : list jsstring) : jsstring := hd [] parts.

(** A string in a boolean position: the empty string is falsy. *)
Definition truthy (s : jsstring) : bool := nonEmpty s.

End Js.

(** ** ResponseParser: the parsing steps of the "generate" handler *)

Module Parser.
Import Js.

(** [interface Flashcard] *)
Record Flashcard : Type := mkFlashcard {
  emoji : jsstring;
  term : jsstring;
  definition : jsstring
}.

(** The object [{term, definition}] built for each line of the
    key-value input. *)
Record TermDef : Type := mkTermDef {
  pair_term : jsstring;
  pair_definition : jsstring
}.

(** The messages of the two [throw new Error(...)] of the handler, and
    the failure of the call to the text-generation service. *)
Inductive GenError : Type :=
| InvalidFormat        (* "Invalid 'Term: Definition' format." *)
| CouldNotGenerate     (* "Could not generate flashcards. ..." *)
| ServiceFailure.      (* [await ai.models.generateContent] rejected *)

(** The two prompts sent to the service. *)
Inductive Prompt : Type :=
| EmojiPrompt (terms : list jsstring)
| TopicPrompt (topic : jsstring).

(** ['âœ¨'] as the source file has it (three code units). *)
Definition fallbackEmoji : jsstring := [226; 339; 168]%N.

(** [topic.includes(':') && topic.includes('\n')] *)
Definition isKeyValueInput (topic : jsstring) : bool :=
  includes colon topic && includes newline topic.

(** [.split('\n').filter((line) => line.trim() !== '' && line.includes(':'))] *)
Definition colonLines (text : jsstring) : list jsstring :=
  List.filter (fun line => nonEmpty (trim line) && includes colon line)
              (split newline text).

(** The callback of [lines.map] in the key-value path. *)
Definition parsePair (line : jsstring) : TermDef :=
  let parts := split colon line in
  {| pair_term := trim (first parts);
     pair_definition := trim (join colon (drop 1 parts)) |}.

Definition termDefPairs (topic : jsstring) : list TermDef :=
  List.map parsePair (colonLines topic).

(** The callback of [lines.map] in the free-form path: [None] is the
    [null] returned for a line with fewer than three parts. *)
Definition parseTriplet (line : jsstring) : option Flashcard :=
  let parts := split colon line in
  if (3 <=? length parts)%nat then
    Some {| emoji := trim (nth 0 parts []);
            term := trim (nth 1 parts []);
            definition := trim (join colon (drop 2 parts)) |}
  else None.

(** [.split('\n').filter((line) => line.trim() !== '')] *)
Definition nonBlankLines (text : jsstring) : list jsstring :=
  List.filter (fun line => nonEmpty (trim line)) (split newline text).

(** [lines.map(...).filter((card) => card !== null)] *)
Definition freeFormCards (flashcardsText : jsstring) : list Flashcard :=
  omap parseTriplet (nonBlankLines flashcardsText).

(** [if (flashcards.length === 0) throw new Error('Could not generate ...')] *)
Definition checkNonEmpty (flashcards : list Flashcard)
  : GenError + list Flashcard :=
  if (length flashcards =? 0)%nat then inl CouldNotGenerate
  else inr flashcards.

Section WithLowerCase.

(** [String.prototype.toLowerCase] is a built-in driven by the Unicode
    case tables; the parser is embedded over any such function. *)
Variable toLowerCase : jsstring -> jsstring.

(** [terms.find((t) => t.toLowerCase() === term.toLowerCase())] *)
Definition findOriginal (terms : list jsstring) (term : jsstring)
  : option jsstring :=
  List.find (fun t => bool_decide (toLowerCase t = toLowerCase term)) terms.

(** The callback of [forEach] that fills [emojiMap]. *)
Definition emojiStep (terms : list jsstring)
    (emojiMap : gmap (list N) (list N)) (line : jsstring)
  : gmap (list N) (list N) :=
  let parts := split colon line in
  let term := trim (first parts) in
  let emoji := trim (join colon (drop 1 parts)) in
  match findOriginal terms term with
  | Some originalTerm =>
      if truthy originalTerm then <[originalTerm := emoji]> emojiMap
      else emojiMap
  | None => emojiMap
  end.

Definition emojiMap (terms : list jsstring) (emojiResponse : jsstring)
  : gmap (list N) (list N) :=
  foldl (emojiStep terms) ∅ (colonLines emojiResponse).

(** [emojiMap.get(pair.term) || 'âœ¨'] *)
Definition emojiOr (m : gmap (list N) (list N)) (t : jsstring) : jsstring :=
  match m !! t with
  | Some e => if truthy e then e else fallbackEmoji
  | None => fallbackEmoji
  end.

(** [termDefPairs.map((pair) => ({term, definition, emoji}))] *)
Definition keyValueCards (pairs : list TermDef) (emojiResponse : jsstring)
  : list Flashcard :=
  let terms := List.map pair_term pairs in
  let m := emojiMap terms emojiResponse in
  List.map (fun pair =>
              {| term := pair_term pair;
                 definition := pair_definition pair;
                 emoji := emojiOr m (pair_term pair) |}) pairs.

(** The body of the [try] block up to the rendering loop.  The
    service is a function from the prompt to the text of its answer,
    [None] when the call fails. *)
Definition generateFlashcards (ai : Prompt -> option jsstring)
    (topic : jsstring) : GenError + list Flashcard :=
  if isKeyValueInput topic then
    let pairs := termDefPairs topic in
    if (length pairs =? 0)%nat then inl InvalidFormat
    else
      match ai (EmojiPrompt (List.map pair_term pairs)) with
      | Some emojiResponse =>
          checkNonEmpty (keyValueCards pairs emojiResponse)
      | None => inl ServiceFailure
      end
  else
    match ai (TopicPrompt topic) with
    | Some flashcardsText => checkNonEmpty (freeFormCards flashcardsText)
    | None => inl ServiceFailure
    end.

End WithLowerCase.

End Parser.

(** ** The shuffle loop

    [cards] is the array made by [Array.from] before the loop and never
    updated; the container's children are reordered by [insertBefore].
    A node is identified by its position in that array, so the children
    start as [0, 1, ..., n-1]. *)

Module Shuffle.

(** The child list once [node] is detached. *)
Definition detach (node : nat) (children : list nat) : list nat :=
  List.filter (fun x => negb (x =? node)%nat) children.

(** [node] put just before the child [ref]; [None] when [ref] is not a
    child (the DOM raises [NotFoundError]). *)
Fixpoint placeBefore (node ref : nat) (children : list nat)
  : option (list nat) :=
  match children with
  | [] => None
  | x :: rest =>
      if (x =? ref)%nat then Some (node :: x :: rest)
      else cons x <$> placeBefore node ref rest
  end.

(** [container.insertBefore(node, ref)] for a [node] that may already be
    a child: it is moved.  With [node] the same as [ref] the reference
    becomes the next sibling of [node] and the order is unchanged. *)
Definition insertBefore (node ref : nat) (children : list nat)
  : option (list nat) :=
  if existsb (Nat.eqb ref) children then
    if (node =? ref)%nat then Some children
    else placeBefore node ref (detach node children)
  else None.

(** [for (let i = n - 1; i > 0; i--)], entered with [i]; [rnd i] is the
    value of [Math.floor(Math.random() * (i + 1))] in the iteration for
    [i].  [cards[j]] is [undefined] for [j >= n] and [insertBefore]
    then raises [TypeError]: [None]. *)
Fixpoint shuffleLoop (rnd : nat -> nat) (n i : nat) (children : list nat)
  : option (list nat) :=
  match i with
  | O => Some children
  | S i' =>
      let j := rnd i in
      if (j <? n)%nat then
        insertBefore j i children ≫= shuffleLoop rnd n i'
      else None
  end.

Definition shuffleOrder (rnd : nat -> nat) (n : nat) : option (list nat) :=
  shuffleLoop rnd n (n - 1) (seq 0 n).

(** The children after the click handler, as the cards themselves. *)
Definition shuffle {A : Type} (rnd : nat -> nat) (cards : list A)
  : option (list A) :=
  shuffleOrder rnd (length cards) ≫= mapM (fun k => cards !! k).

(** The algorithm named by the comment in the source and described by
    the specification: for [i] from the last index down to 1, swap the
    elements at [i] and [rnd i]. *)
Definition swap {A : Type} (i j : nat) (l : list A) : list A :=
  match l !! i, l !! j with
  | Some x, Some y => <[j := x]> (<[i := y]> l)
  | _, _ => l
  end.

Fixpoint fisherYatesLoop {A : Type} (rnd : nat -> nat) (i : nat)
    (l : list A) : list A :=
  match i with
  | O => l
  | S i' => fisherYatesLoop rnd i' (swap i (rnd i) l)
  end.

Definition fisherYates {A : Type} (rnd : nat -> nat) (l : list A) : list A :=
  fisherYatesLoop rnd (length l - 1) l.

End Shuffle.

(** ** ViewState: the globals and the part of the page the handlers touch *)

Module View.
Import Parser.

(** A [div.flashcard] child of the container, with its classes. *)
Record Card : Type := mkCard {
  content : Flashcard;
  flipped : bool;
  removing : bool;
  active : bool
}.

(** [modeSwitchButton.textContent] *)
Inductive ModeLabel : Type := FocusModeText | GridModeText.

Inductive Direction : Type := next | prev.

Record ViewState : Type := mkView {
  isFocusMode : bool;
  currentCardIndex : Z;
  cards : list Card;
  focusModeClass : bool;                (* class of the container *)
  modeSwitchText : ModeLabel;
  modeSwitchHidden : bool;
  shuffleHidden : bool;
  focusNavHidden : bool;
  cardCounter : Z * Z                   (* "a / b" *)
}.

Definition setFlipped (b : bool) (c : Card) : Card :=
  {| content := content c; flipped := b;
     removing := removing c; active := active c |}.

Definition setRemoving (b : bool) (c : Card) : Card :=
  {| content := content c; flipped := flipped c;
     removing := b; active := active c |}.

Definition setActive (b : bool) (c : Card) : Card :=
  {| content := content c; flipped := flipped c;
     removing := removing c; active := b |}.

Definition withCards (cs : list Card) (st : ViewState) : ViewState :=
  {| isFocusMode := isFocusMode st;
     currentCardIndex := currentCardIndex st;
     cards := cs;
     focusModeClass := focusModeClass st;
     modeSwitchText := modeSwitchText st;
     modeSwitchHidden := modeSwitchHidden st;
     shuffleHidden := shuffleHidden st;
     focusNavHidden := focusNavHidden st;
     cardCounter := cardCounter st |}.

Definition withMode (focus : bool) (index : Z) (st : ViewState) : ViewState :=
  {| isFocusMode := focus;
     currentCardIndex := index;
     cards := cards st;
     focusModeClass := focusModeClass st;
     modeSwitchText := modeSwitchText st;
     modeSwitchHidden := modeSwitchHidden st;
     shuffleHidden := shuffleHidden st;
     focusNavHidden := focusNavHidden st;
     cardCounter := cardCounter st |}.

(** [resetUI] *)
Definition resetUI (st : ViewState) : ViewState :=
  {| isFocusMode := false;
     currentCardIndex := 0;
     cards := cards st;
     focusModeClass := false;
     modeSwitchText := FocusModeText;
     modeSwitchHidden := true;
     shuffleHidden := true;
     focusNavHidden := true;
     cardCounter := cardCounter st |}.

(** [updateCardVisibility] *)
Definition updateCardVisibility (st : ViewState) : ViewState :=
  let hasCards := (0 <? length (cards st))%nat in
  if negb hasCards then
    {| isFocusMode := false;
       currentCardIndex := currentCardIndex st;
       cards := cards st;
       focusModeClass := false;
       modeSwitchText := FocusModeText;
       modeSwitchHidden := negb hasCards;
       shuffleHidden := negb hasCards;
       focusNavHidden := negb (isFocusMode st) || negb hasCards;
       cardCounter := cardCounter st |}
  else if isFocusMode st then
    {| isFocusMode := true;
       currentCardIndex := currentCardIndex st;
       cards := imap (fun index card =>
                        setActive (Z.of_nat index =? currentCardIndex st) card)
                     (cards st);
       focusModeClass := true;
       modeSwitchText := GridModeText;
       modeSwitchHidden := negb hasCards;
       shuffleHidden := negb hasCards;
       focusNavHidden := negb (isFocusMode st) || negb hasCards;
       cardCounter := (currentCardIndex st + 1, Z.of_nat (length (cards st))) |}
  else
    {| isFocusMode := false;
       currentCardIndex := currentCardIndex st;
       cards := setActive false <$> cards st;
       focusModeClass := false;
       modeSwitchText := FocusModeText;
       modeSwitchHidden := negb hasCards;
       shuffleHidden := negb hasCards;
       focusNavHidden := negb (isFocusMode st) || negb hasCards;
       cardCounter := cardCounter st |}.

(** [cards[currentCardIndex]?.classList.remove('flipped')]: nothing
    happens when the index is not one of the list. *)
Definition unflipAt (index : Z) (cs : list Card) : list Card :=
  if 0 <=? index then alter (setFlipped false) (Z.to_nat index) cs else cs.

(** [navigateCards]; [%] is the truncating remainder. *)
Definition navigateCards (direction : Direction) (st : ViewState) : ViewState :=
  let len := Z.of_nat (length (cards st)) in
  if len <=? 1 then st
  else
    let cs := unflipAt (currentCardIndex st) (cards st) in
    let newIndex :=
      match direction with
      | next => Z.rem (currentCardIndex st + 1) len
      | prev => Z.rem (currentCardIndex st - 1 + len) len
      end in
    updateCardVisibility (withMode (isFocusMode st) newIndex (withCards cs st)).

(** The click handler of [modeSwitchButton]. *)
Definition modeSwitchClick (st : ViewState) : ViewState :=
  let focus := negb (isFocusMode st) in
  if focus then
    updateCardVisibility (withMode true 0 st)
  else
    updateCardVisibility
      (withMode false (currentCardIndex st)
                (withCards (setFlipped false <$> cards st) st)).

(** The click handler of the delete button of the [k]-th card. *)
Definition deleteClick (k : nat) (st : ViewState) : ViewState :=
  withCards (alter (setRemoving true) k (cards st)) st.

(** Its [transitionend] handler: [flashcard.remove()] and then
    [updateCardVisibility()], for the card at position [k] (a position
    past the end stands for a card that is already detached). *)
Definition removeCard (k : nat) (st : ViewState) : ViewState :=
  updateCardVisibility (withCards (delete k (cards st)) st).

(** The click handler of a card. *)
Definition toggleFlip (k : nat) (st : ViewState) : ViewState :=
  withCards (alter (fun c => setFlipped (negb (flipped c)) c) k (cards st)) st.

(** The click handler of [shuffleButton]; it does not call
    [updateCardVisibility]. *)
Definition shuffleClick (rnd : nat -> nat) (st : ViewState)
  : option ViewState :=
  (fun cs => withCards cs st) <$> Shuffle.shuffle rnd (cards st).

(** The rendering loop: one card per record, appended in order. *)
Definition newCard (cardData : Flashcard) : Card :=
  {| content := cardData; flipped := false;
     removing := false; active := false |}.

Definition addCards (flashcards : list Flashcard) (st : ViewState)
  : ViewState :=
  withCards (cards st ++ (newCard <$> flashcards)) st.

(** The click handler of [generateButton], from the text of the input
    box; the wait for the service is taken as one step. *)
Definition generateClick (toLowerCase : jsstring -> jsstring)
    (ai : Prompt -> option jsstring) (input : jsstring) (st : ViewState)
  : ViewState :=
  let topic := Js.trim input in
  if negb (Js.truthy topic) then withCards [] st
  else
    let st1 := resetUI (withCards [] st) in
    match generateFlashcards toLowerCase ai topic with
    | inr flashcards => updateCardVisibility (addCards flashcards st1)
    | inl _ => updateCardVisibility st1
    end.

(** User events, and the states a page session can reach from a page
    just loaded (grid mode, index 0, no cards). *)
Inductive step : ViewState -> ViewState -> Prop :=
| step_generate toLowerCase ai input st :
    step st (generateClick toLowerCase ai input st)
| step_mode st : step st (modeSwitchClick st)
| step_navigate d st : step st (navigateCards d st)
| step_delete k st : step st (deleteClick k st)
| step_remove k st : step st (removeCard k st)
| step_flip k st : step st (toggleFlip k st)
| step_shuffle rnd st st' :
    (forall i, (rnd i <= i)%nat) ->
    shuffleClick rnd st = Some st' -> step st st'.

Definition pageLoaded (st : ViewState) : Prop :=
  isFocusMode st = false /\ currentCardIndex st = 0 /\ cards st = [].

Inductive reachable : ViewState -> Prop :=
| reach_load st : pageLoaded st -> reachable st
| reach_step st st' : reachable st -> step st st' -> reachable st'.

(** The invariant of the specification on the focused index. *)
Definition focusIndexValid (st : ViewState) : Prop :=
  isFocusMode st = true -> cards st <> [] ->
  0 <= currentCardIndex st < Z.of_nat (length (cards st)).

End View.

(** ** Sample sessions

    Concrete inputs used further down: a lower-casing function, a
    service with a fixed answer, and a few page sessions. *)

Module Examples.
Import Js Parser View.

(** [toLowerCase] on the ASCII letters. *)
Definition asciiLower (s : jsstring) : jsstring :=
  (fun c => if ((65 <=? c) && (c <=? 90))%N then (c + 32)%N else c) <$> s.

(** Lines of text joined by line feeds. *)
Definition text (lines : list jsstring) : jsstring := join newline lines.

(** A service that always answers with the same text. *)
Definition answering (answer : jsstring) : Prompt -> option jsstring :=
  fun _ => Some answer.

Definition pageJustLoaded : ViewState :=
  {| isFocusMode := false; currentCardIndex := 0; cards := [];
     focusModeClass := false; modeSwitchText := FocusModeText;
     modeSwitchHidden := true; shuffleHidden := true;
     focusNavHidden := true; cardCounter := (0, 0) |}.

Definition threeTriplets : jsstring :=
  text [lit "1: one: the first"; lit "2: two: the second";
        lit "3: three: the third"].

Definition twoTriplets : jsstring :=
  text [lit "1: one: the first"; lit "2: two: the second"].

(** Three cards generated from a topic, in grid mode. *)
Definition threeCards : ViewState :=
  generateClick asciiLower (answering threeTriplets) (lit "numbers")
                pageJustLoaded.

(** ... then focus mode, and "next" twice: the last card is focused. *)
Definition focusedOnLast : ViewState :=
  navigateCards next (navigateCards next (modeSwitchClick threeCards)).

(** ... then a click on the delete button of the focused card: its
    transition is running. *)
Definition deletingFocused : ViewState := deleteClick 2 focusedOnLast.

Definition twoCards : ViewState :=
  generateClick asciiLower (answering twoTriplets) (lit "numbers")
                pageJustLoaded.

(** Two cards; focus mode, "next", back to grid mode, and the first
    card deleted: one card in grid mode, the index still 1. *)
Definition oneCardLeft : ViewState :=
  removeCard 0
    (deleteClick 0
       (modeSwitchClick (navigateCards next (modeSwitchClick twoCards)))).

(** ... then a click on the delete button of the card that is left. *)
Definition deletingOnlyCard : ViewState := deleteClick 0 oneCardLeft.

(** Three cards in grid mode, then "generate" with a blank input box:
    the container is emptied and nothing else is touched, so the mode
    button is still shown. *)
Definition clearedByBlankInput : ViewState :=
  generateClick asciiLower (answering threeTriplets) (lit "  ") threeCards.

(** Draws of the shuffle: 0 in the iteration for position 2, and the
    position itself in the others. *)
Definition drawZeroAtTwo (i : nat) : nat :=
  if (i =? 2)%nat then 0%nat else i.

(** The key-value input and the emoji answer of the end-to-end example,
    with the first term of the answer in lower case. *)
Definition catDogInput : jsstring :=
  text [lit "Cat: A small domesticated feline";
        lit "Dog: A domesticated canine"].

Definition catDogAnswer : jsstring := text [lit "cat: =^.^="; lit "Dog: U^x^U"].

(** An emoji answer about another term. *)
Definition zebraAnswer : jsstring := text [lit "Zebra: (zebra)"].

(** An answer of the service without a single triplet. *)
Definition noTriplets : jsstring :=
  text [lit "Sorry, no cards today"; lit ""; lit "Reason: unknown"].

End Examples.

(** ** Derived notions *)

Module Derived.
Import View.

(** The number of cards that carry the [active] class. *)
Definition activeCount (cs : list Card) : nat :=
  length (filter (fun c => active c = true) cs).

(** At most one card is active, and none in grid mode. *)
Definition activeInv (st : ViewState) : Prop :=
  (activeCount (cards st) <= 1)%nat /\
  (isFocusMode st = false -> activeCount (cards st) = 0%nat).

End Derived.

(** ** More sample inputs *)

Module MoreExamples.
Import Js Parser Examples.

(** Two terms that differ only by case. *)
Definition caseTwinsInput : jsstring :=
  text [lit "Cat: a feline"; lit "cat: the same animal"].

Definition caseTwinsAnswer : jsstring := text [lit "cat: (cat)"].

(** An answer with one triplet among other lines. *)
Definition chattyAnswer : jsstring :=
  text [lit "Here are your cards:"; lit "1: one: the first"; lit "Enjoy"].

(** An input of one key-value line between blank lines. *)
Definition oneLineInput : jsstring :=
  text [lit "  "; lit "Cat: a feline"; lit ""].

End MoreExamples.

(** * Properties *)

(** ** Facts about the string methods *)

Module JsFacts.
Import Js.

Lemma includes_In c s : includes c s = true <-> In c s.
Proof.
  unfold includes. rewrite existsb_exists. split.
  - intros (x & Hx & Heq). apply N.eqb_eq in Heq. by subst.
  - intros Hc. exists c. split; [done | apply N.eqb_refl].
Qed.

Lemma includes_false c s : includes c s = false <-> ~ In c s.
Proof.
  rewrite <- includes_In. destruct (includes c s); split; congruence.
Qed.

Lemma split_not_nil sep s : split sep s <> [].
Proof.
  destruct s as [|c s]; simpl; [done |].
  destruct (c =? sep)%N; [done |]. by destruct (split sep s).
Qed.

Lemma split_cons_other sep c s :
  c <> sep ->
  split sep (c :: s) = (c :: first (split sep s)) :: drop 1 (split sep s).
Proof.
  intros Hc. simpl. apply N.eqb_neq in Hc. rewrite Hc.
  pose proof (split_not_nil sep s). by destruct (split sep s).
Qed.

(** Splitting at the first separator: the first part is the text before
    it and the other parts are those of the text after it. *)
Lemma split_first sep before after :
  ~ In sep before ->
  split sep (before ++ sep :: after) = before :: split sep after.
Proof.
  induction before as [|c before IH]; intros Hnot; simpl.
  - by rewrite N.eqb_refl.
  - assert (c <> sep) as Hc by (intros ->; apply Hnot; by left).
    apply N.eqb_neq in Hc. rewrite Hc.
    rewrite IH; [done |]. intros Hin. apply Hnot. by right.
Qed.

Lemma split_none sep s : ~ In sep s -> split sep s = [s].
Proof.
  induction s as [|c s IH]; intros Hnot; simpl; [done |].
  assert (c <> sep) as Hc by (intros ->; apply Hnot; by left).
  apply N.eqb_neq in Hc. rewrite Hc.
  rewrite IH; [done |]. intros Hin. apply Hnot. by right.
Qed.

Lemma join_cons sep p ps :
  ps <> [] -> join sep (p :: ps) = p ++ sep :: join sep ps.
Proof. by destruct ps. Qed.

(** [s.split(sep).join(sep)] is [s]. *)
Lemma join_split sep s : join sep (split sep s) = s.
Proof.
  induction s as [|c s IH]; [done |].
  pose proof (split_not_nil sep s) as Hne.
  simpl split. destruct (N.eqb_spec c sep) as [->|Hc].
  - rewrite join_cons; [| done]. simpl. by rewrite IH.
  - destruct (split sep s) as [|p ps] eqn:E; [done |].
    destruct ps as [|q ps]; simpl in *; by rewrite <- IH.
Qed.

(** The text up to the first separator. *)
Lemma first_separator sep s :
  In sep s ->
  exists before after : jsstring,
    s = before ++ sep :: after /\ ~ In sep before.
Proof.
  induction s as [|c s IH]; intros Hin; [done |].
  destruct (N.eq_dec c sep) as [->|Hc].
  - exists [], s. split; [done | by intros []].
  - destruct Hin as [->|Hin]; [done |].
    destruct (IH Hin) as (before & after & -> & Hnot).
    exists (c :: before), after. split; [done |].
    intros [?|?]; [done | by apply Hnot].
Qed.

(** The number of parts is one more than the number of separators. *)
Lemma split_length sep s :
  length (split sep s) = S (length (List.filter (N.eqb sep) s)).
Proof.
  induction s as [|c s IH]; [done |].
  pose proof (split_not_nil sep s) as Hne.
  simpl. rewrite (N.eqb_sym sep c). destruct (c =? sep)%N; simpl.
  - by rewrite IH.
  - destruct (split sep s); [done |]. by rewrite <- IH.
Qed.

(** A code unit of a joined text that is not the separator is in one
    of the parts. *)
Lemma In_join c sep parts :
  c <> sep -> In c (join sep parts) ->
  exists p : jsstring, In p parts /\ In c p.
Proof.
  intros Hc. induction parts as [|p ps IH]; intros Hin; [done |].
  destruct ps as [|q ps].
  - exists p. split; [by left | done].
  - rewrite join_cons in Hin; [| done].
    apply in_app_or in Hin as [Hin|[Heq|Hin]].
    + exists p. split; [by left | done].
    + by subst.
    + destruct (IH Hin) as (p' & Hp' & Hcp'). exists p'. split; [by right | done].
Qed.

Lemma In_split c sep s :
  c <> sep -> In c s -> exists p : jsstring, In p (split sep s) /\ In c p.
Proof.
  intros Hc Hin. apply (In_join c sep); [done |]. by rewrite join_split.
Qed.

(** A part of a split text does not contain the separator. *)
Lemma split_parts_no_sep sep s p : In p (split sep s) -> ~ In sep p.
Proof.
  revert p. induction s as [|c s IH]; intros p Hp.
  - destruct Hp as [<-|[]]. by intros [].
  - pose proof (split_not_nil sep s) as Hne. simpl in Hp.
    destruct (N.eqb_spec c sep) as [->|Hc].
    + destruct Hp as [<-|Hp]; [by intros [] | by apply IH].
    + destruct (split sep s) as [|q qs]; [done |].
      destruct Hp as [<-|Hp].
      * intros [?|Hin]; [done |]. by apply (IH q); [left |].
      * apply IH. by right.
Qed.

(** *** [trim] *)

Lemma trimStart_spec s :
  exists ws, s = ws ++ trimStart s /\
             Forall (fun c => isWhiteSpace c = true) ws /\
             (forall c rest, trimStart s = c :: rest -> isWhiteSpace c = false).
Proof.
  induction s as [|c s (ws & Heq & Hws & Hhd)].
  - exists []. by repeat split.
  - simpl. destruct (isWhiteSpace c) eqn:Ec.
    + exists (c :: ws). repeat split; [simpl; congruence | by constructor | done].
    + exists []. repeat split; [by constructor |]. intros c' rest [= <- _]. done.
Qed.

Lemma trimStart_keeps c s :
  isWhiteSpace c = false -> In c s -> In c (trimStart s).
Proof.
  intros Hc. induction s as [|d s IH]; intros Hin; [done |].
  simpl. destruct (isWhiteSpace d) eqn:Ed; [| done].
  destruct Hin as [->|Hin]; [congruence | by apply IH].
Qed.

Lemma trimStart_incl c s : In c (trimStart s) -> In c s.
Proof.
  induction s as [|d s IH]; [done |]. simpl.
  destruct (isWhiteSpace d); [| done]. intros Hin. right. by apply IH.
Qed.

Lemma trim_keeps c s : isWhiteSpace c = false -> In c s -> In c (trim s).
Proof.
  intros Hc Hin. unfold trim, trimEnd.
  apply in_rev. rewrite rev_involutive.
  apply trimStart_keeps; [done |]. apply -> in_rev.
  by apply trimStart_keeps.
Qed.

Lemma trim_incl c s : In c (trim s) -> In c s.
Proof.
  unfold trim, trimEnd. intros Hin. apply in_rev in Hin.
  apply trimStart_incl in Hin. apply in_rev in Hin.
  by apply trimStart_incl.
Qed.

(** [trim] removes a run of white space at each end and nothing else,
    and what is left neither starts nor ends with white space. *)
Lemma trim_spec s :
  exists l r, s = l ++ trim s ++ r /\
              Forall (fun c => isWhiteSpace c = true) l /\
              Forall (fun c => isWhiteSpace c = true) r /\
              (forall c rest, trim s = c :: rest -> isWhiteSpace c = false) /\
              (forall c rest, trim s = rest ++ [c] -> isWhiteSpace c = false).
Proof.
  destruct (trimStart_spec s) as (l & Hl & Hwl & Hhd).
  destruct (trimStart_spec (rev (trimStart s))) as (r & Hr & Hwr & Hlast).
  exists l, (rev r). unfold trim, trimEnd.
  assert (trimStart s = rev (trimStart (rev (trimStart s))) ++ rev r) as Hmid.
  { rewrite <- rev_app_distr, <- Hr. by rewrite rev_involutive. }
  repeat split.
  - by rewrite <- Hmid.
  - done.
  - apply List.Forall_forall. intros c Hc. apply in_rev in Hc.
    rewrite List.Forall_forall in Hwr. by apply Hwr.
  - intros c rest Heq. rewrite Heq in Hmid. by apply (Hhd c (rest ++ rev r)).
  - intros c rest Heq. apply (Hlast c (rev rest)).
    apply (f_equal (@rev N)) in Heq.
    rewrite rev_involutive, rev_app_distr in Heq. done.
Qed.

Lemma colon_not_white : isWhiteSpace colon = false.
Proof. reflexivity. Qed.

Lemma nonEmpty_trim c s :
  isWhiteSpace c = false -> In c s -> nonEmpty (trim s) = true.
Proof.
  intros Hc Hin. pose proof (trim_keeps c s Hc Hin) as Hk.
  by destruct (trim s).
Qed.

End JsFacts.

(** ** The parser *)

Module ParserFacts.
Import Js JsFacts Parser.

(** The boolean callback of a JavaScript [filter] against the property
    it decides. *)
Lemma filter_decides {A : Type} (f : A -> bool) (P : A -> Prop)
    `{!forall x, Decision (P x)} (l : list A) :
  (forall x, f x = true <-> P x) -> List.filter f l = filter P l.
Proof.
  intros Hf. induction l as [|x l IH]; [done |].
  simpl. rewrite filter_cons. destruct (decide (P x)) as [HP|HP].
  - apply Hf in HP. rewrite HP. by f_equal.
  - destruct (f x) eqn:E; [by apply Hf in E | done].
Qed.

Lemma nonEmpty_true (s : jsstring) : nonEmpty s = true <-> s <> [].
Proof. by destruct s. Qed.

(** A line with a colon is cut at its first colon. *)
Lemma parsePair_first_colon (before after : jsstring) :
  ~ In colon before ->
  parsePair (before ++ colon :: after)
  = {| pair_term := trim before; pair_definition := trim after |}.
Proof.
  intros Hnot. unfold parsePair. rewrite split_first; [| done].
  simpl. rewrite drop_0. by rewrite join_split.
Qed.

Lemma colonLines_filter (text : jsstring) :
  colonLines text
  = filter (fun line : jsstring => trim line <> [] /\ colon ∈ line)
           (split newline text).
Proof.
  apply filter_decides. intros line.
  rewrite andb_true_iff, nonEmpty_true, includes_In, list_elem_of_In. done.
Qed.

Lemma colonLines_In (text line : jsstring) :
  In line (colonLines text) <->
  In line (split newline text) /\ In colon line.
Proof.
  unfold colonLines. rewrite filter_In, andb_true_iff, includes_In.
  split; [tauto |]. intros [Hl Hc]. repeat split; try done.
  by apply (nonEmpty_trim colon); [apply colon_not_white |].
Qed.

(** A text with a colon has a line with a colon. *)
Lemma colonLines_not_nil (text : jsstring) :
  In colon text -> colonLines text <> [].
Proof.
  intros Hin.
  destruct (In_split colon newline text) as (line & Hline & Hc); [done.. |].
  assert (In line (colonLines text)) as Hq by (by apply colonLines_In).
  by destruct (colonLines text).
Qed.

Lemma checkNonEmpty_nil : checkNonEmpty [] = inl CouldNotGenerate.
Proof. reflexivity. Qed.

Lemma checkNonEmpty_not_invalid cards : checkNonEmpty cards <> inl InvalidFormat.
Proof. unfold checkNonEmpty. by destruct (_ =? _)%nat. Qed.

(** *** The free-form path *)

Lemma parseTriplet_short (line : jsstring) :
  (length (split colon line) < 3)%nat -> parseTriplet line = None.
Proof.
  intros Hlen. unfold parseTriplet.
  destruct (Nat.leb_spec 3 (length (split colon line))); [lia | done].
Qed.

Lemma parseTriplet_long (line : jsstring) :
  (3 <= length (split colon line))%nat ->
  exists (e t : jsstring) (rest : list jsstring),
    split colon line = e :: t :: rest /\ rest <> [] /\
    parseTriplet line
    = Some {| emoji := trim e; term := trim t;
              definition := trim (join colon rest) |}.
Proof.
  intros Hlen. unfold parseTriplet.
  destruct (Nat.leb_spec 3 (length (split colon line))); [| lia].
  destruct (split colon line) as [|e [|t [|r rest]]]; simpl in *; try lia.
  exists e, t, (r :: rest). by repeat split.
Qed.

Lemma nonBlankLines_filter (text : jsstring) :
  nonBlankLines text
  = filter (fun line : jsstring => trim line <> []) (split newline text).
Proof. apply filter_decides. intros line. apply nonEmpty_true. Qed.

(** The records of the free-form path are those of the lines with at
    least three parts, in order. *)
Lemma omap_parseTriplet (lines : list jsstring) :
  Forall2 (fun (line : jsstring) card => parseTriplet line = Some card)
          (filter (fun line : jsstring =>
                     (3 <= length (split colon line))%nat) lines)
          (omap parseTriplet lines).
Proof.
  induction lines as [|line lines IH]; [constructor |].
  rewrite filter_cons. simpl.
  destruct (decide (3 <= length (split colon line))%nat) as [Hlen|Hlen].
  - destruct (parseTriplet_long line Hlen) as (e & t & rest & _ & _ & Heq).
    rewrite Heq. by constructor.
  - rewrite parseTriplet_short; [done | lia].
Qed.

Lemma parseTriplet_Some (line : jsstring) (card : Flashcard) :
  parseTriplet line = Some card ->
  exists (e t : jsstring) (rest : list jsstring),
    split colon line = e :: t :: rest /\ rest <> [] /\
    card = {| emoji := trim e; term := trim t;
              definition := trim (join colon rest) |}.
Proof.
  intros Hsome.
  destruct (Nat.le_gt_cases 3 (length (split colon line))) as [Hlen|Hlen].
  - destruct (parseTriplet_long line Hlen) as (e & t & rest & Hs & Hr & Heq).
    exists e, t, rest. repeat split; [done.. |]. congruence.
  - rewrite parseTriplet_short in Hsome; [done | lia].
Qed.

Lemma Forall2_map {A B : Type} (R : A -> B -> Prop) (f : A -> B)
    (l : list A) :
  (forall x, In x l -> R x (f x)) -> Forall2 R l (List.map f l).
Proof.
  induction l as [|x l IH]; intros HR; [constructor |].
  simpl. constructor; [apply HR; by left |].
  apply IH. intros y Hy. apply HR. by right.
Qed.

(** A line with three parts has a colon, so it is not blank, and its
    record is among the cards of the free-form path. *)
Lemma three_parts_colon (line : jsstring) :
  (3 <= length (split colon line))%nat -> In colon line.
Proof.
  intros Hlen. destruct (includes colon line) eqn:E; [by apply includes_In |].
  apply includes_false in E. rewrite (split_none colon line E) in Hlen.
  simpl in Hlen. lia.
Qed.

Lemma freeFormCards_In (flashcardsText line : jsstring) (card : Flashcard) :
  In line (split newline flashcardsText) ->
  parseTriplet line = Some card ->
  In card (freeFormCards flashcardsText).
Proof.
  intros Hline Hcard.
  assert (3 <= length (split colon line))%nat as Hlen.
  { destruct (Nat.le_gt_cases 3 (length (split colon line))); [done |].
    rewrite parseTriplet_short in Hcard; [done | lia]. }
  assert (In line (nonBlankLines flashcardsText)) as Hnb.
  { unfold nonBlankLines. apply filter_In. split; [done |].
    apply (nonEmpty_trim colon); [apply colon_not_white |].
    by apply three_parts_colon. }
  apply list_elem_of_In. unfold freeFormCards. apply list_elem_of_omap.
  exists line. split; [by apply list_elem_of_In | done].
Qed.

End ParserFacts.

(** ** The emoji map of the key-value path *)

Module EmojiFacts.
Import Js JsFacts Parser ParserFacts.

Section WithLowerCase.

Variable toLowerCase : jsstring -> jsstring.
Variable terms : list jsstring.

Local Abbreviation step := (emojiStep toLowerCase terms).
Local Abbreviation lineTerm line := (pair_term (parsePair line)).
Local Abbreviation lineEmoji line := (pair_definition (parsePair line)).

Lemma findOriginal_Some (term t : jsstring) :
  findOriginal toLowerCase terms term = Some t ->
  In t terms /\ toLowerCase t = toLowerCase term.
Proof.
  unfold findOriginal. intros Hfind. apply find_some in Hfind as [Hin Heq].
  split; [done |]. by apply bool_decide_eq_true in Heq.
Qed.

Lemma findOriginal_None (term : jsstring) :
  findOriginal toLowerCase terms term = None ->
  forall t, In t terms -> toLowerCase t <> toLowerCase term.
Proof.
  unfold findOriginal. intros Hfind t Hin Heq.
  apply (find_none _ _ Hfind) in Hin. simpl in Hin.
  by apply bool_decide_eq_false in Hin.
Qed.

(** The step writes at most the key found for its line. *)
Lemma emojiStep_lookup (m : gmap (list N) (list N)) (line t : jsstring) :
  step m line !! t
  = if bool_decide (findOriginal toLowerCase terms (lineTerm line) = Some t
                    /\ t <> [])
    then Some (lineEmoji line) else m !! t.
Proof.
  unfold emojiStep. fold (parsePair line).
  change (trim (first (split colon line))) with (lineTerm line).
  change (trim (join colon (drop 1 (split colon line))))
    with (lineEmoji line).
  destruct (findOriginal toLowerCase terms (lineTerm line)) as [t'|] eqn:E.
  - destruct t' as [|c t']; simpl.
    + case_bool_decide as H; [| done]. destruct H as [[= <-] H]. done.
    + destruct (decide (c :: t' = t)) as [<-|Hne].
      * rewrite lookup_insert_eq. by rewrite bool_decide_eq_true_2.
      * rewrite lookup_insert_ne; [| done].
        rewrite bool_decide_eq_false_2; [done |]. intros [[= ?] _]. done.
  - rewrite bool_decide_eq_false_2; [done |]. by intros [? _].
Qed.

Lemma fold_untouched (lines : list jsstring)
    (m : gmap (list N) (list N)) (t : jsstring) :
  (forall line, In line lines ->
                findOriginal toLowerCase terms (lineTerm line) <> Some t) ->
  foldl step m lines !! t = m !! t.
Proof.
  revert m. induction lines as [|line lines IH]; intros m Hno; [done |].
  simpl. rewrite IH; [| intros l Hl; apply Hno; by right].
  rewrite emojiStep_lookup. rewrite bool_decide_eq_false_2; [done |].
  intros [Hf _]. by apply (Hno line); [left |].
Qed.

(** An entry of the map comes from a line whose term found that key. *)
Lemma fold_origin (lines : list jsstring)
    (m : gmap (list N) (list N)) (t e : jsstring) :
  foldl step m lines !! t = Some e ->
  m !! t = Some e \/
  exists line, In line lines /\
               findOriginal toLowerCase terms (lineTerm line) = Some t /\
               e = lineEmoji line.
Proof.
  revert m. induction lines as [|line lines IH]; intros m Hl; [by left |].
  simpl in Hl. apply IH in Hl as [Hl|(l & Hin & Hf & He)].
  - rewrite emojiStep_lookup in Hl. case_bool_decide as H.
    + right. exists line. destruct H as [H _]. injection Hl as <-.
      split; [by left | done].
    + by left.
  - right. exists l. split; [by right | done].
Qed.

(** The last line that finds a key decides its entry. *)
Lemma fold_last (ls1 ls2 : list jsstring) (line : jsstring)
    (m : gmap (list N) (list N)) (t : jsstring) :
  findOriginal toLowerCase terms (lineTerm line) = Some t ->
  t <> [] ->
  (forall l, In l ls2 ->
             findOriginal toLowerCase terms (lineTerm l) <> Some t) ->
  foldl step m (ls1 ++ line :: ls2) !! t = Some (lineEmoji line).
Proof.
  intros Hf Ht Hno. rewrite foldl_app. simpl.
  rewrite fold_untouched; [| done].
  rewrite emojiStep_lookup. by rewrite bool_decide_eq_true_2.
Qed.

Lemma emojiOr_nonempty (m : gmap (list N) (list N)) (t : jsstring) :
  emojiOr m t <> [].
Proof.
  unfold emojiOr. destruct (m !! t) as [[|c e]|]; done.
Qed.

End WithLowerCase.

(** The first term with a given lower-case form is the one found. *)
Lemma findOriginal_first toLowerCase (ts1 ts2 : list jsstring)
    (t term : jsstring) :
  toLowerCase t = toLowerCase term ->
  (forall q, In q ts1 -> toLowerCase q <> toLowerCase term) ->
  findOriginal toLowerCase (ts1 ++ t :: ts2) term = Some t.
Proof.
  intros Heq Hno. unfold findOriginal.
  induction ts1 as [|q ts1 IH]; simpl.
  - by rewrite bool_decide_eq_true_2.
  - rewrite bool_decide_eq_false_2; [| apply Hno; by left].
    apply IH. intros q' Hq'. apply Hno. by right.
Qed.

End EmojiFacts.

(** ** The shuffle loop *)

Module ShuffleFacts.
Import Shuffle.

Lemma elem_of_detach (node x : nat) (l : list nat) :
  x ∈ detach node l <-> x ∈ l /\ x <> node.
Proof.
  unfold detach. rewrite !list_elem_of_In, filter_In, negb_true_iff.
  by rewrite Nat.eqb_neq.
Qed.

Lemma detach_absent (node : nat) (l : list nat) :
  node ∉ l -> detach node l = l.
Proof.
  induction l as [|x l IH]; intros Hnot; [done |].
  apply not_elem_of_cons in Hnot as [Hne Hnot]. simpl.
  destruct (Nat.eqb_spec x node) as [->|_]; [done |].
  simpl. f_equal. by apply IH.
Qed.

(** Detaching a child takes exactly that child away. *)
Lemma detach_perm (node : nat) (l : list nat) :
  NoDup l -> node ∈ l -> node :: detach node l ≡ₚ l.
Proof.
  induction l as [|x l IH]; intros Hnd Hin; [by apply elem_of_nil in Hin |].
  apply NoDup_cons in Hnd as [Hx Hnd]. simpl.
  destruct (Nat.eqb_spec x node) as [->|Hne]; simpl.
  - by rewrite detach_absent.
  - apply elem_of_cons in Hin as [->|Hin]; [done |].
    rewrite Permutation_swap. by rewrite IH.
Qed.

Lemma placeBefore_perm (node ref : nat) (l : list nat) :
  ref ∈ l ->
  exists l', placeBefore node ref l = Some l' /\ l' ≡ₚ node :: l.
Proof.
  induction l as [|x l IH]; intros Hin; [by apply elem_of_nil in Hin |].
  simpl. destruct (Nat.eqb_spec x ref) as [->|Hne].
  - by eexists.
  - apply elem_of_cons in Hin as [->|Hin]; [done |].
    destruct (IH Hin) as (l' & -> & Hperm). eexists. split; [done |].
    rewrite Hperm. apply Permutation_swap.
Qed.

Lemma existsb_eqb (ref : nat) (l : list nat) :
  existsb (Nat.eqb ref) l = true <-> ref ∈ l.
Proof.
  rewrite existsb_exists, list_elem_of_In. split.
  - intros (x & Hx & Heq). apply Nat.eqb_eq in Heq. by subst.
  - intros Hin. exists ref. split; [done | apply Nat.eqb_refl].
Qed.

(** [insertBefore] on two children succeeds and only reorders. *)
Lemma insertBefore_perm (node ref : nat) (l : list nat) :
  NoDup l -> node ∈ l -> ref ∈ l ->
  exists l', insertBefore node ref l = Some l' /\ l' ≡ₚ l.
Proof.
  intros Hnd Hnode Href. unfold insertBefore.
  rewrite (proj2 (existsb_eqb ref l) Href).
  destruct (Nat.eqb_spec node ref) as [->|Hne]; [by eexists |].
  destruct (placeBefore_perm node ref (detach node l)) as (l' & -> & Hperm).
  { apply elem_of_detach. split; [done | congruence]. }
  exists l'. split; [done |]. rewrite Hperm. by apply detach_perm.
Qed.

Section Loop.

Variable rnd : nat -> nat.
Hypothesis rnd_range : forall i, (rnd i <= i)%nat.

Lemma shuffleLoop_perm (n i : nat) (children : list nat) :
  (i < n)%nat -> children ≡ₚ seq 0 n ->
  exists out, shuffleLoop rnd n i children = Some out /\ out ≡ₚ seq 0 n.
Proof.
  revert children. induction i as [|i IH]; intros children Hi Hperm.
  - by exists children.
  - simpl. pose proof (rnd_range (S i)) as Hj.
    destruct (Nat.ltb_spec (rnd (S i)) n) as [_|?]; [| lia].
    destruct (insertBefore_perm (rnd (S i)) (S i) children)
      as (l' & -> & Hl').
    + rewrite Hperm. apply NoDup_seq.
    + rewrite Hperm. apply elem_of_seq. lia.
    + rewrite Hperm. apply elem_of_seq. lia.
    + simpl. apply IH; [lia |]. by rewrite Hl'.
Qed.

Lemma shuffleOrder_perm (n : nat) :
  exists out, shuffleOrder rnd n = Some out /\ out ≡ₚ seq 0 n.
Proof.
  unfold shuffleOrder. destruct n as [|n]; [by exists [] |].
  apply shuffleLoop_perm; [lia | done].
Qed.

End Loop.

(** Reading the cards back through a reordering of their positions. *)
Lemma mapM_lookup_seq {A : Type} (pre cards : list A) :
  mapM (fun k => (pre ++ cards) !! k) (seq (length pre) (length cards))
  = Some cards.
Proof.
  revert pre. induction cards as [|c cards IH]; intros pre; [done |].
  simpl. rewrite list_lookup_middle; [| done]. simpl.
  specialize (IH (pre ++ [c])). rewrite length_app in IH. simpl in IH.
  rewrite <- app_assoc in IH. simpl in IH.
  replace (length pre + 1)%nat with (S (length pre)) in IH by lia.
  by rewrite IH.
Qed.

Lemma mapM_perm {A B : Type} (f : A -> option B) (l1 l2 : list A)
    (k1 : list B) :
  l1 ≡ₚ l2 -> mapM f l1 = Some k1 ->
  exists k2, mapM f l2 = Some k2 /\ k1 ≡ₚ k2.
Proof.
  intros Hperm. revert k1.
  induction Hperm as [|x l1 l2 _ IH|x y l|l1 l2 l3 _ IH1 _ IH2]; intros k1 Hk1.
  - exists k1. by split.
  - simpl in *. destruct (f x) as [b|]; [| done]. simpl in *.
    destruct (mapM f l1) as [k|] eqn:E; [| done]. injection Hk1 as <-.
    destruct (IH k eq_refl) as (k2 & -> & Hk2). exists (b :: k2).
    split; [done | by constructor].
  - simpl in *. destruct (f y) as [b|]; [| done].
    destruct (f x) as [a|]; [| done]. simpl in *.
    destruct (mapM f l) as [k|]; [| done]. injection Hk1 as <-.
    exists (a :: b :: k). split; [done | apply Permutation_swap].
  - destruct (IH1 k1 Hk1) as (k2 & Hk2 & Hp12).
    destruct (IH2 k2 Hk2) as (k3 & Hk3 & Hp23).
    exists k3. split; [done | by etrans].
Qed.

(** A card that is last before the click is last after it. *)
Lemma detach_snoc (node z : nat) (pre : list nat) :
  node <> z -> detach node (pre ++ [z]) = detach node pre ++ [z].
Proof.
  intros Hne. unfold detach. rewrite List.filter_app. simpl.
  destruct (Nat.eqb_spec z node); [congruence | done].
Qed.

Lemma placeBefore_snoc (node ref z : nat) (pre l' : list nat) :
  placeBefore node ref (pre ++ [z]) = Some l' ->
  exists pre', l' = pre' ++ [z].
Proof.
  revert l'. induction pre as [|x pre IH]; intros l'; simpl.
  - destruct (z =? ref)%nat; [| done]. intros [= <-]. by exists [node].
  - destruct (x =? ref)%nat.
    + intros [= <-]. by exists (node :: x :: pre).
    + destruct (placeBefore node ref (pre ++ [z])) as [l|]; [| done].
      intros [= <-]. destruct (IH l eq_refl) as (pre' & ->).
      by exists (x :: pre').
Qed.

Lemma shuffleLoop_keeps_last (rnd : nat -> nat) (n i z : nat)
    (pre out : list nat) :
  (forall k, (rnd k <= k)%nat) -> (i <= z)%nat ->
  shuffleLoop rnd n i (pre ++ [z]) = Some out ->
  exists pre', out = pre' ++ [z].
Proof.
  intros Hrnd. revert pre. induction i as [|i IH]; intros pre Hi; simpl.
  - intros [= <-]. by exists pre.
  - destruct (rnd (S i) <? n)%nat; [| done].
    unfold insertBefore.
    destruct (existsb (Nat.eqb (S i)) (pre ++ [z])); [| done].
    destruct (Nat.eqb_spec (rnd (S i)) (S i)) as [_|Hne]; simpl.
    + apply IH. lia.
    + pose proof (Hrnd (S i)) as Hj.
      rewrite detach_snoc; [| lia].
      destruct (placeBefore _ _ _) as [l|] eqn:E; [| done]. simpl.
      apply placeBefore_snoc in E as (pre' & ->). apply IH. lia.
Qed.

(** With no card or one card the loop body never runs, whatever the
    draws. *)
Lemma shuffle_nil {A : Type} (rnd : nat -> nat) :
  shuffle rnd (@nil A) = Some [].
Proof. reflexivity. Qed.

Lemma shuffle_singleton {A : Type} (rnd : nat -> nat) (x : A) :
  shuffle rnd [x] = Some [x].
Proof. reflexivity. Qed.

(** The click handler returns, and only reorders the cards. *)
Lemma shuffle_perm {A : Type} (rnd : nat -> nat) (cards : list A) :
  (forall i, (rnd i <= i)%nat) ->
  exists out, shuffle rnd cards = Some out /\ out ≡ₚ cards.
Proof.
  intros Hrnd. unfold shuffle.
  destruct (shuffleOrder_perm rnd Hrnd (length cards)) as (ids & -> & Hids).
  simpl. pose proof (mapM_lookup_seq [] cards) as Hseq. simpl in Hseq.
  symmetry in Hids.
  destruct (mapM_perm _ _ _ _ Hids Hseq) as (out & Hout & Hperm).
  exists out. split; [done | by symmetry].
Qed.

Lemma shuffle_keeps_last {A : Type} (rnd : nat -> nat) (init : list A)
    (x : A) (out : list A) :
  (forall i, (rnd i <= i)%nat) ->
  shuffle rnd (init ++ [x]) = Some out ->
  exists init', out = init' ++ [x].
Proof.
  intros Hrnd. unfold shuffle, shuffleOrder.
  rewrite length_app. simpl.
  replace (length init + 1 - 1)%nat with (length init) by lia.
  rewrite seq_app. simpl.
  destruct (shuffleLoop _ _ _ _) as [ids|] eqn:E; [| done]. simpl.
  apply shuffleLoop_keeps_last in E as (pre' & ->); [| done | lia].
  intros Hm. apply mapM_Some in Hm.
  apply Forall2_app_inv_l in Hm as (k1 & k2 & _ & Hlast & ->).
  apply Forall2_cons_inv_l in Hlast as (y & k3 & Hy & Hnil & ->).
  apply Forall2_nil_inv_l in Hnil as ->.
  rewrite list_lookup_middle in Hy by done. injection Hy as <-.
  by exists k1.
Qed.

End ShuffleFacts.

(** ** The view state *)

Module ViewFacts.
Import Parser View.

(** [updateCardVisibility] keeps the index and the cards, up to their
    [active] class, and leaves focus mode only when there is no card. *)
Lemma update_index st :
  currentCardIndex (updateCardVisibility st) = currentCardIndex st.
Proof.
  unfold updateCardVisibility.
  by destruct (negb _), (isFocusMode st).
Qed.

Lemma update_mode st :
  isFocusMode (updateCardVisibility st)
  = isFocusMode st && (0 <? length (cards st))%nat.
Proof.
  unfold updateCardVisibility.
  by destruct (0 <? length (cards st))%nat, (isFocusMode st).
Qed.

Lemma update_lookup st k :
  cards (updateCardVisibility st) !! k
  = setActive (isFocusMode st && (Z.of_nat k =? currentCardIndex st))
    <$> cards st !! k.
Proof.
  unfold updateCardVisibility.
  destruct (Nat.ltb_spec 0 (length (cards st))) as [Hpos|Hzero]; cbn [negb].
  - destruct (isFocusMode st); cbn [cards andb].
    + apply (list_lookup_imap
               (fun index card =>
                  setActive (Z.of_nat index =? currentCardIndex st) card)).
    + apply list_lookup_fmap.
  - assert (cards st = []) as Hnil by (apply length_zero_iff_nil; lia).
    cbn [cards]. by rewrite Hnil.
Qed.

Lemma update_length st :
  length (cards (updateCardVisibility st)) = length (cards st).
Proof.
  unfold updateCardVisibility.
  destruct (negb _), (isFocusMode st); simpl;
    by rewrite ?length_imap, ?length_fmap.
Qed.

Lemma update_nil st : cards st = [] -> cards (updateCardVisibility st) = [].
Proof.
  intros H. apply length_zero_iff_nil. rewrite update_length. by rewrite H.
Qed.

Lemma cards_nil_length st : cards st = [] <-> length (cards st) = 0%nat.
Proof. by rewrite length_zero_iff_nil. Qed.

Lemma unflipAt_length index cs : length (unflipAt index cs) = length cs.
Proof. unfold unflipAt. destruct (0 <=? index); by rewrite ?length_alter. Qed.

Lemma unflipAt_lookup index cs k :
  unflipAt index cs !! k
  = (fun c => if decide (Z.of_nat k = index) then setFlipped false c else c)
    <$> cs !! k.
Proof.
  unfold unflipAt. destruct (Z.leb_spec 0 index) as [Hle|Hlt].
  - rewrite list_lookup_alter. destruct (decide (Z.to_nat index = k)) as [<-|Hne].
    + destruct (cs !! Z.to_nat index); simpl; [| done].
      by rewrite decide_True by lia.
    + destruct (cs !! k); simpl; [| done]. by rewrite decide_False by lia.
  - destruct (cs !! k); simpl; [| done]. by rewrite decide_False by lia.
Qed.

(** *** The index invariant, handler by handler *)

Lemma generate_index_valid toLowerCase ai input st :
  focusIndexValid (generateClick toLowerCase ai input st).
Proof.
  unfold generateClick, focusIndexValid.
  destruct (negb _); [done |].
  destruct (generateFlashcards _ _ _); rewrite update_mode; done.
Qed.

Lemma mode_index_valid st : focusIndexValid (modeSwitchClick st).
Proof.
  unfold modeSwitchClick, focusIndexValid.
  destruct (isFocusMode st) eqn:E; simpl.
  - by rewrite update_mode.
  - rewrite update_index, update_length. simpl. intros _ Hne.
    rewrite cards_nil_length, update_length in Hne. simpl in Hne. lia.
Qed.

Lemma navigate_index_range d st :
  (2 <= length (cards st))%nat -> 0 <= currentCardIndex st ->
  0 <= currentCardIndex (navigateCards d st)
    < Z.of_nat (length (cards (navigateCards d st))).
Proof.
  intros Hlen Hidx. unfold navigateCards.
  destruct (Z.leb_spec (Z.of_nat (length (cards st))) 1); [lia |].
  rewrite update_index, update_length. simpl. rewrite unflipAt_length.
  destruct d; rewrite Z.rem_mod_nonneg by lia; apply Z.mod_pos_bound; lia.
Qed.

Lemma navigate_index_valid d st :
  focusIndexValid st -> focusIndexValid (navigateCards d st).
Proof.
  intros Hinv. destruct (Nat.le_gt_cases 2 (length (cards st))) as [Hlen|Hlen].
  - intros Hfocus _. assert (isFocusMode st = true) as Hf.
    { revert Hfocus. unfold navigateCards.
      destruct (Z.leb_spec (Z.of_nat (length (cards st))) 1); [done |].
      rewrite update_mode. simpl. by intros [? _]%andb_true_iff. }
    apply navigate_index_range; [done |].
    apply Hinv; [done |]. rewrite cards_nil_length. lia.
  - unfold navigateCards.
    destruct (Z.leb_spec (Z.of_nat (length (cards st))) 1); [done | lia].
Qed.

Lemma same_length_index_valid st st' :
  isFocusMode st' = isFocusMode st ->
  currentCardIndex st' = currentCardIndex st ->
  length (cards st') = length (cards st) ->
  focusIndexValid st -> focusIndexValid st'.
Proof.
  unfold focusIndexValid. intros -> -> Hlen Hinv Hfocus Hne.
  rewrite Hlen. apply Hinv; [done |].
  rewrite cards_nil_length in *. lia.
Qed.

Lemma deleteClick_index_valid k st :
  focusIndexValid st -> focusIndexValid (deleteClick k st).
Proof.
  apply same_length_index_valid; try done. apply length_alter.
Qed.

Lemma toggleFlip_index_valid k st :
  focusIndexValid st -> focusIndexValid (toggleFlip k st).
Proof.
  apply same_length_index_valid; try done. apply length_alter.
Qed.

(** *** The index is never negative *)

Lemma removeCard_index k st :
  currentCardIndex (removeCard k st) = currentCardIndex st.
Proof. unfold removeCard. by rewrite update_index. Qed.

Lemma navigate_index_nonneg d st :
  0 <= currentCardIndex st -> 0 <= currentCardIndex (navigateCards d st).
Proof.
  intros Hidx. unfold navigateCards.
  destruct (Z.leb_spec (Z.of_nat (length (cards st))) 1); [done |].
  rewrite update_index. simpl.
  destruct d; rewrite Z.rem_mod_nonneg by lia; apply Z.mod_pos_bound; lia.
Qed.

Lemma step_index_nonneg st st' :
  step st st' -> 0 <= currentCardIndex st -> 0 <= currentCardIndex st'.
Proof.
  intros Hstep Hidx. destruct Hstep as [lower ai input st| st | d st | k st
                                       | k st | k st | rnd st st' _ Hsh].
  - unfold generateClick. destruct (negb _); [done |].
    destruct (generateFlashcards _ _ _); by rewrite update_index.
  - unfold modeSwitchClick.
    destruct (negb _); by rewrite update_index.
  - by apply navigate_index_nonneg.
  - done.
  - by rewrite removeCard_index.
  - done.
  - unfold shuffleClick in Hsh.
    destruct (Shuffle.shuffle rnd (cards st)); [| done].
    by injection Hsh as <-.
Qed.

Lemma reachable_index_nonneg st : reachable st -> 0 <= currentCardIndex st.
Proof.
  induction 1 as [st (_ & -> & _)|st st' _ IH Hstep]; [done |].
  by apply (step_index_nonneg st).
Qed.

Lemma shuffleClick_index_valid rnd st st' :
  (forall i, (rnd i <= i)%nat) -> shuffleClick rnd st = Some st' ->
  focusIndexValid st -> focusIndexValid st'.
Proof.
  intros Hrnd Hsh. unfold shuffleClick in Hsh.
  destruct (ShuffleFacts.shuffle_perm rnd (cards st) Hrnd) as (out & Hout & Hperm).
  rewrite Hout in Hsh. injection Hsh as <-.
  apply same_length_index_valid; try done. simpl.
  by apply Permutation_length.
Qed.

(** Every handler but the removal of a card keeps the index valid. *)
Lemma step_index_valid st st' :
  step st st' -> (forall k, st' <> removeCard k st) ->
  focusIndexValid st -> focusIndexValid st'.
Proof.
  intros Hstep Hkeep Hinv.
  destruct Hstep as [lower ai input st| st | d st | k st
                     | k st | k st | rnd st st' Hrnd Hsh].
  - apply generate_index_valid.
  - apply mode_index_valid.
  - by apply navigate_index_valid.
  - by apply deleteClick_index_valid.
  - by destruct (Hkeep k).
  - by apply toggleFlip_index_valid.
  - by apply (shuffleClick_index_valid rnd st).
Qed.

End ViewFacts.

(** ** Trimming the text of the input box

    The handler parses [topicInput.value.trim()]; the white space taken
    off at both ends changes no pair of the key-value path. *)

Module TrimFacts.
Import Js JsFacts Parser ParserFacts.

Lemma white_not_colon (c : N) : isWhiteSpace c = true -> c <> colon.
Proof. intros Hc ->. by rewrite colon_not_white in Hc. Qed.

Lemma trim_cons_white (c : N) (s : jsstring) :
  isWhiteSpace c = true -> trim (c :: s) = trim s.
Proof. intros Hc. unfold trim. simpl. by rewrite Hc. Qed.

Lemma trimStart_app (s t : jsstring) :
  trimStart (s ++ t)
  = match trimStart s with [] => trimStart t | _ :: _ => trimStart s ++ t end.
Proof.
  induction s as [|c s IH]; simpl; [by destruct (trimStart t) |].
  by destruct (isWhiteSpace c).
Qed.

Lemma trim_snoc_white (c : N) (s : jsstring) :
  isWhiteSpace c = true -> trim (s ++ [c]) = trim s.
Proof.
  intros Hc. unfold trim, trimEnd. rewrite trimStart_app.
  destruct (trimStart s) as [|d s'] eqn:E; simpl; [by rewrite Hc |].
  rewrite rev_unit. simpl. by rewrite Hc.
Qed.

Lemma includes_cons_other (c d : N) (s : jsstring) :
  d <> c -> includes c (d :: s) = includes c s.
Proof.
  intros Hne. unfold includes. simpl.
  destruct (N.eqb_spec c d); [congruence | done].
Qed.

Lemma includes_snoc_other (c d : N) (s : jsstring) :
  d <> c -> includes c (s ++ [d]) = includes c s.
Proof.
  intros Hne. unfold includes. rewrite existsb_app. simpl.
  destruct (N.eqb_spec c d); [congruence |]. by rewrite !orb_false_r.
Qed.

Lemma parsePair_cons_white (c : N) (line : jsstring) :
  isWhiteSpace c = true -> parsePair (c :: line) = parsePair line.
Proof.
  intros Hc. unfold parsePair.
  rewrite split_cons_other by (by apply white_not_colon).
  pose proof (split_not_nil colon line) as Hne.
  destruct (split colon line) as [|p ps]; [done |]. simpl.
  by rewrite trim_cons_white.
Qed.

Lemma parsePair_snoc_white (c : N) (line : jsstring) :
  isWhiteSpace c = true -> In colon line ->
  parsePair (line ++ [c]) = parsePair line.
Proof.
  intros Hc Hin.
  destruct (first_separator colon line Hin) as (before & after & -> & Hnot).
  rewrite <- app_assoc. simpl.
  rewrite !parsePair_first_colon by done. by rewrite trim_snoc_white.
Qed.

(** The parts of a text with one more code unit at its end. *)
Lemma split_snoc_sep (sep : N) (s : jsstring) :
  split sep (s ++ [sep]) = split sep s ++ [[]].
Proof.
  induction s as [|d s IH]; simpl; [by rewrite N.eqb_refl |].
  rewrite IH. destruct (d =? sep)%N; [done |].
  pose proof (split_not_nil sep s). by destruct (split sep s).
Qed.

Lemma split_snoc_other (sep c : N) (s : jsstring) :
  c <> sep ->
  exists (parts : list jsstring) (p : jsstring),
    split sep s = parts ++ [p] /\ split sep (s ++ [c]) = parts ++ [p ++ [c]].
Proof.
  intros Hc. induction s as [|d s (parts & p & Hs & Hsc)]; simpl.
  - exists [], []. apply N.eqb_neq in Hc. by rewrite Hc.
  - rewrite Hs, Hsc. destruct (d =? sep)%N.
    + by exists ([] :: parts), p.
    + destruct parts as [|q qs]; simpl.
      * by exists [], (d :: p).
      * by exists ((d :: q) :: qs), p.
Qed.

Local Abbreviation keeps :=
  (fun line : jsstring => nonEmpty (trim line) && includes colon line).

Lemma termDefPairs_cons_white (c : N) (s : jsstring) :
  isWhiteSpace c = true -> termDefPairs (c :: s) = termDefPairs s.
Proof.
  intros Hc. unfold termDefPairs, colonLines.
  destruct (N.eq_dec c newline) as [->|Hnl].
  - simpl. done.
  - rewrite split_cons_other by done.
    pose proof (split_not_nil newline s) as Hne.
    destruct (split newline s) as [|p ps]; [done |].
    replace (drop 1 (p :: ps)) with ps by done.
    cbn [first hd List.filter].
    rewrite trim_cons_white by done.
    rewrite includes_cons_other by (by apply white_not_colon).
    destruct (nonEmpty (trim p) && includes colon p); [| done].
    rewrite !map_cons. by rewrite parsePair_cons_white.
Qed.

Lemma termDefPairs_snoc_white (c : N) (s : jsstring) :
  isWhiteSpace c = true -> termDefPairs (s ++ [c]) = termDefPairs s.
Proof.
  intros Hc. unfold termDefPairs, colonLines.
  destruct (N.eq_dec c newline) as [->|Hnl].
  - rewrite split_snoc_sep, List.filter_app. simpl. by rewrite app_nil_r.
  - destruct (split_snoc_other newline c s Hnl) as (parts & p & -> & ->).
    rewrite !List.filter_app, !map_app. f_equal. cbn [List.filter].
    rewrite trim_snoc_white by done.
    rewrite includes_snoc_other by (by apply white_not_colon).
    destruct (nonEmpty (trim p)); cbn [andb]; [| done].
    destruct (includes colon p) eqn:E; [| done]. rewrite !map_cons.
    apply includes_In in E. by rewrite parsePair_snoc_white.
Qed.

(** The pairs of the trimmed text are the pairs of the text. *)
Lemma termDefPairs_trim (input : jsstring) :
  termDefPairs (trim input) = termDefPairs input.
Proof.
  destruct (trim_spec input) as (l & r & Heq & Hl & Hr & _).
  rewrite Heq at 2. clear Heq.
  induction Hl as [|c l Hc _ IH]; simpl.
  - induction r as [|c r IH] using rev_ind; [by rewrite app_nil_r |].
    apply Forall_app in Hr as [Hr Hc]. apply Forall_inv in Hc.
    rewrite app_assoc, termDefPairs_snoc_white by done. by apply IH.
  - by rewrite termDefPairs_cons_white.
Qed.

End TrimFacts.

(** * The claims of the specification *)

(** ** shuffle() *)

Module ShuffleSpec.
Import Shuffle ShuffleFacts View.

(** C9. For every card list, of any size, and every sequence of draws
    (each draw for position [i] in [0, i]), the click handler of the
    shuffle button returns and the cards after it are a reordering of
    the cards before it: nothing is added, duplicated or lost; the mode
    and the index are untouched. *)
Theorem shuffle_permutes (rnd : nat -> nat) (st : ViewState) :
  (forall i, (rnd i <= i)%nat) ->
  exists st',
    shuffleClick rnd st = Some st' /\
    cards st' ≡ₚ cards st /\
    isFocusMode st' = isFocusMode st /\
    currentCardIndex st' = currentCardIndex st.
Proof.
  intros Hrnd. unfold shuffleClick.
  destruct (shuffle_perm rnd (cards st) Hrnd) as (out & -> & Hperm).
  eexists. split; [done |]. by repeat split.
Qed.

Lemma shuffle_permutes_witness :
  exists st',
    shuffleClick Examples.drawZeroAtTwo Examples.threeCards = Some st' /\
    cards st' ≡ₚ cards Examples.threeCards /\
    isFocusMode st' = isFocusMode Examples.threeCards /\
    currentCardIndex st' = currentCardIndex Examples.threeCards.
Proof.
  apply (shuffle_permutes Examples.drawZeroAtTwo Examples.threeCards).
  intros i. unfold Examples.drawZeroAtTwo.
  destruct (i =? 2)%nat; lia.
Defined.

(** C3. The loop is not the Fisher-Yates algorithm its comment names.
    On three cards, with the draw 0 for position 2 and the draw 1 for
    position 1, the handler moves the first card before the third and
    yields [2; 1; 3], where swapping positions 2 and 0 yields
    [3; 2; 1]. *)
Theorem shuffle_differs_from_fisher_yates :
  (forall i, (Examples.drawZeroAtTwo i <= i)%nat) /\
  shuffle Examples.drawZeroAtTwo [1; 2; 3]%nat = Some [2; 1; 3]%nat /\
  fisherYates Examples.drawZeroAtTwo [1; 2; 3]%nat = [3; 2; 1]%nat.
Proof.
  split; [| split; reflexivity].
  intros i. unfold Examples.drawZeroAtTwo. destruct (i =? 2)%nat; lia.
Qed.

End ShuffleSpec.

(** ** ViewState *)

Module ViewSpec.
Import Parser View ViewFacts Examples.

(** C1. The removal of a card does not bring the index back into range.
    In the session [deletingFocused] (three cards generated, focus mode,
    "next" twice, a click on the delete button of the focused card) the
    index is 2 and valid; once the transition ends and the third card is
    removed the page is still in focus mode with two cards and the index
    is still 2: the counter reads "3 / 2" and no card is active. *)
Theorem removeCard_leaves_index_past_end :
  reachable deletingFocused /\ focusIndexValid deletingFocused /\
  isFocusMode (removeCard 2 deletingFocused) = true /\
  length (cards (removeCard 2 deletingFocused)) = 2%nat /\
  currentCardIndex (removeCard 2 deletingFocused) = 2 /\
  cardCounter (removeCard 2 deletingFocused) = (3, 2) /\
  Forall (fun c => active c = false) (cards (removeCard 2 deletingFocused)) /\
  ~ focusIndexValid (removeCard 2 deletingFocused).
Proof.
  split; [| split].
  - unfold deletingFocused, focusedOnLast, threeCards.
    repeat (eapply reach_step; [| constructor]).
    by apply reach_load.
  - unfold focusIndexValid. intros _ _. vm_compute. by split.
  - repeat split; try reflexivity.
    + vm_compute. by repeat constructor.
    + unfold focusIndexValid. intros Hinv.
      assert (isFocusMode (removeCard 2 deletingFocused) = true) as Hf
          by reflexivity.
      assert (cards (removeCard 2 deletingFocused) <> []) as Hne
          by (vm_compute; discriminate).
      specialize (Hinv Hf Hne). vm_compute in Hinv.
      destruct Hinv as [_ Hlt]. discriminate.
Qed.

(** C2, as stated, fails: in the session [deletingOnlyCard] (two cards,
    the index moved to 1 in focus mode, grid mode again, one card
    deleted, a click on the delete button of the other) one card is
    left, and removing it leaves the index at 1. *)
Lemma only_card_removed_index_kept :
  reachable deletingOnlyCard /\ length (cards deletingOnlyCard) = 1%nat /\
  ~ (isFocusMode (removeCard 0 deletingOnlyCard) = false /\
     currentCardIndex (removeCard 0 deletingOnlyCard) = 0).
Proof.
  split; [| split].
  - unfold deletingOnlyCard, oneCardLeft, twoCards.
    repeat (eapply reach_step; [| constructor]).
    by apply reach_load.
  - reflexivity.
  - intros [_ Hidx]. vm_compute in Hidx. discriminate.
Qed.

(** C2, amended. For every state with exactly one card, removing that
    card empties the list, forces grid mode and sets the controls as
    [resetUI] does, and leaves the index as it was. *)
Theorem removing_only_card (st : ViewState) :
  length (cards st) = 1%nat ->
  cards (removeCard 0 st) = [] /\
  isFocusMode (removeCard 0 st) = false /\
  currentCardIndex (removeCard 0 st) = currentCardIndex st /\
  removeCard 0 st
  = withMode false (currentCardIndex st) (resetUI (withCards [] st)).
Proof.
  intros Hlen. destruct (cards st) as [|c [|c' cs]] eqn:E; try done.
  unfold removeCard, updateCardVisibility. simpl. rewrite E. simpl.
  repeat split. unfold withMode, resetUI. simpl. f_equal.
  apply orb_true_r.
Qed.

Lemma removing_only_card_witness :
  cards (removeCard 0 deletingOnlyCard) = [] /\
  isFocusMode (removeCard 0 deletingOnlyCard) = false /\
  currentCardIndex (removeCard 0 deletingOnlyCard)
  = currentCardIndex deletingOnlyCard /\
  removeCard 0 deletingOnlyCard
  = withMode false (currentCardIndex deletingOnlyCard)
             (resetUI (withCards [] deletingOnlyCard)).
Proof. apply (removing_only_card deletingOnlyCard). reflexivity. Defined.

(** C7. [navigateCards] changes nothing when there are fewer than two
    cards.  Otherwise it takes the [flipped] class off the card at the
    current index, leaves the other cards as they are, and moves the
    index by +1 ("next") or -1 ("prev") modulo the number of cards:
    "next" from the last index gives 0 and "prev" from 0 gives the last
    index. *)
Theorem navigate_wraps (d : Direction) (st : ViewState) :
  ((length (cards st) < 2)%nat -> navigateCards d st = st) /\
  ((2 <= length (cards st))%nat -> 0 <= currentCardIndex st ->
   currentCardIndex (navigateCards d st)
   = (currentCardIndex st + match d with next => 1 | prev => -1 end)
       mod Z.of_nat (length (cards st)) /\
   (d = next -> currentCardIndex st = Z.of_nat (length (cards st)) - 1 ->
    currentCardIndex (navigateCards d st) = 0) /\
   (d = prev -> currentCardIndex st = 0 ->
    currentCardIndex (navigateCards d st) = Z.of_nat (length (cards st)) - 1) /\
   isFocusMode (navigateCards d st) = isFocusMode st /\
   length (cards (navigateCards d st)) = length (cards st) /\
   forall k c, cards st !! k = Some c ->
     exists c', cards (navigateCards d st) !! k = Some c' /\
                content c' = content c /\
                removing c' = removing c /\
                flipped c'
                = if decide (Z.of_nat k = currentCardIndex st) then false
                  else flipped c).
Proof.
  split.
  - intros Hlen. unfold navigateCards.
    destruct (Z.leb_spec (Z.of_nat (length (cards st))) 1); [done | lia].
  - intros Hlen Hidx.
    assert (currentCardIndex (navigateCards d st)
            = (currentCardIndex st + match d with next => 1 | prev => -1 end)
                mod Z.of_nat (length (cards st))) as Hnew.
    { unfold navigateCards.
      destruct (Z.leb_spec (Z.of_nat (length (cards st))) 1); [lia |].
      rewrite update_index. simpl.
      destruct d; rewrite Z.rem_mod_nonneg by lia; [done |].
      replace (currentCardIndex st - 1 + Z.of_nat (length (cards st)))
        with (currentCardIndex st + -1 + 1 * Z.of_nat (length (cards st)))
        by lia.
      apply Z_mod_plus_full. }
    split; [done |]. split; [| split; [| split; [| split]]].
    + intros -> Hlast. rewrite Hnew, Hlast.
      replace (Z.of_nat (length (cards st)) - 1 + 1)
        with (Z.of_nat (length (cards st))) by lia.
      apply Z_mod_same_full.
    + intros -> Hzero. rewrite Hnew, Hzero.
      replace (0 + -1)
        with (Z.of_nat (length (cards st)) - 1
              + -1 * Z.of_nat (length (cards st))) by lia.
      rewrite Z_mod_plus_full. apply Z.mod_small. lia.
    + unfold navigateCards.
      destruct (Z.leb_spec (Z.of_nat (length (cards st))) 1); [lia |].
      rewrite update_mode. simpl. rewrite unflipAt_length.
      destruct (Nat.ltb_spec 0 (length (cards st))); [| lia].
      apply andb_true_r.
    + unfold navigateCards.
      destruct (Z.leb_spec (Z.of_nat (length (cards st))) 1); [lia |].
      rewrite update_length. simpl. apply unflipAt_length.
    + intros k c Hk. unfold navigateCards.
      destruct (Z.leb_spec (Z.of_nat (length (cards st))) 1); [lia |].
      rewrite update_lookup. simpl. rewrite unflipAt_lookup, Hk. simpl.
      eexists. split; [done |].
      by destruct (decide (Z.of_nat k = currentCardIndex st)).
Qed.

Lemma navigate_wraps_witness :
  navigateCards prev oneCardLeft = oneCardLeft /\
  currentCardIndex (navigateCards next focusedOnLast) = 0 /\
  isFocusMode (navigateCards next focusedOnLast) = true.
Proof.
  split.
  - apply (navigate_wraps prev oneCardLeft). vm_compute. lia.
  - destruct (navigate_wraps next focusedOnLast) as [_ H].
    destruct H as (_ & Hwrap & _ & Hmode & _).
    + vm_compute. lia.
    + vm_compute. discriminate.
    + split; [by apply Hwrap | by rewrite Hmode].
Defined.

(** C8, as stated, fails: in the session [clearedByBlankInput] the
    page is in grid mode without cards and the mode button is shown; a
    click on it leaves the page in grid mode. *)
Lemma mode_click_without_cards :
  reachable clearedByBlankInput /\
  cards clearedByBlankInput = [] /\
  modeSwitchHidden clearedByBlankInput = false /\
  isFocusMode clearedByBlankInput = false /\
  isFocusMode (modeSwitchClick clearedByBlankInput)
  <> negb (isFocusMode clearedByBlankInput).
Proof.
  split; [| by repeat split].
  unfold clearedByBlankInput, threeCards.
  repeat (eapply reach_step; [| constructor]).
  by apply reach_load.
Qed.

(** C8, amended. The click on the mode button flips the mode between
    grid and focus when there is at least one card, and ends in grid
    mode when there is none.  A click made in grid mode sets the index
    to 0, so every transition into focus mode does; a click made in
    focus mode ends in grid mode with the [flipped] class taken off
    every card.  The cards are otherwise the same. *)
Theorem modeSwitch_toggles (st : ViewState) :
  (cards st <> [] ->
   isFocusMode (modeSwitchClick st) = negb (isFocusMode st)) /\
  (cards st = [] -> isFocusMode (modeSwitchClick st) = false) /\
  (isFocusMode st = false -> currentCardIndex (modeSwitchClick st) = 0) /\
  (isFocusMode st = true ->
   isFocusMode (modeSwitchClick st) = false /\
   Forall (fun c => flipped c = false) (cards (modeSwitchClick st))) /\
  Forall2 (fun c c' => content c' = content c /\ removing c' = removing c)
          (cards st) (cards (modeSwitchClick st)).
Proof.
  unfold modeSwitchClick. split; [| split; [| split; [| split]]].
  - intros Hne. rewrite cards_nil_length in Hne.
    destruct (isFocusMode st); simpl; rewrite update_mode; simpl;
      [done |].
    rewrite ?length_fmap. by destruct (Nat.ltb_spec 0 (length (cards st))); [| lia].
  - intros Hnil. destruct (isFocusMode st); simpl; rewrite update_mode; simpl;
      [done |]. by rewrite Hnil.
  - intros ->. simpl. by rewrite update_index.
  - intros ->. simpl. split; [by rewrite update_mode |].
    apply Forall_lookup. intros k c.
    rewrite update_lookup. simpl. rewrite list_lookup_fmap.
    destruct (cards st !! k); simpl; [| done]. by intros [= <-].
  - apply Forall2_same_length_lookup. split.
    + destruct (negb _); rewrite update_length; simpl;
        by rewrite ?length_fmap.
    + intros k c c' Hc. destruct (negb _); rewrite update_lookup; simpl;
        rewrite ?list_lookup_fmap, Hc; simpl; by intros [= <-].
Qed.

Lemma modeSwitch_toggles_witness :
  isFocusMode (modeSwitchClick threeCards) = true /\
  currentCardIndex (modeSwitchClick threeCards) = 0 /\
  isFocusMode (modeSwitchClick clearedByBlankInput) = false /\
  isFocusMode (modeSwitchClick focusedOnLast) = false /\
  Forall (fun c => flipped c = false) (cards (modeSwitchClick focusedOnLast)).
Proof.
  destruct (modeSwitch_toggles threeCards) as (Hflip & _ & Hzero & _).
  destruct (modeSwitch_toggles clearedByBlankInput) as (_ & Hnone & _).
  destruct (modeSwitch_toggles focusedOnLast) as (_ & _ & _ & Hleave & _).
  split; [| split; [| split]].
  - apply Hflip. vm_compute. discriminate.
  - apply Hzero. reflexivity.
  - apply Hnone. reflexivity.
  - apply Hleave. reflexivity.
Defined.

End ViewSpec.

(** ** ResponseParser *)

Module ParserSpec.
Import Js JsFacts Parser ParserFacts EmojiFacts TrimFacts Examples.

(** C4. For every key-value input with at least one line that has a
    colon, the pairs are not empty and there is exactly one pair per
    non-blank line with a colon, in the order of the lines: the term is
    the trimmed text before the first colon of the line and the
    definition the trimmed text after it, later colons included.  The
    pairs are the same when the whole text is trimmed first, as the
    handler does with the text of the input box. *)
Theorem key_value_pairs (topic : jsstring) :
  (exists line : jsstring, In line (split newline topic) /\ In colon line) ->
  termDefPairs topic <> [] /\
  Forall2 (fun (line : jsstring) pair =>
             exists before after : jsstring,
               line = before ++ colon :: after /\ ~ In colon before /\
               pair_term pair = trim before /\
               pair_definition pair = trim after)
          (filter (fun line : jsstring => trim line <> [] /\ colon ∈ line)
                  (split newline topic))
          (termDefPairs topic) /\
  termDefPairs (trim topic) = termDefPairs topic.
Proof.
  intros (line & Hline & Hcolon). split; [| split].
  - assert (In line (colonLines topic)) as Hq by (by apply colonLines_In).
    unfold termDefPairs. by destruct (colonLines topic).
  - rewrite <- colonLines_filter. unfold termDefPairs.
    apply Forall2_map. intros l Hl. apply colonLines_In in Hl as [_ Hc].
    destruct (first_separator colon l Hc) as (before & after & -> & Hnot).
    exists before, after. rewrite parsePair_first_colon by done.
    by repeat split.
  - apply termDefPairs_trim.
Qed.

Lemma key_value_pairs_witness :
  termDefPairs catDogInput <> [] /\
  Forall2 (fun (line : jsstring) pair =>
             exists before after : jsstring,
               line = before ++ colon :: after /\ ~ In colon before /\
               pair_term pair = trim before /\
               pair_definition pair = trim after)
          (filter (fun line : jsstring => trim line <> [] /\ colon ∈ line)
                  (split newline catDogInput))
          (termDefPairs catDogInput) /\
  termDefPairs (trim catDogInput) = termDefPairs catDogInput.
Proof.
  apply (key_value_pairs catDogInput).
  exists (lit "Cat: A small domesticated feline").
  split; [left; reflexivity | right; right; right; left; reflexivity].
Defined.

(** The example of the specification for a definition with colons. *)
Example key_value_keeps_later_colons :
  termDefPairs (lit "HTTP: A protocol: for transferring data")
  = [{| pair_term := lit "HTTP";
        pair_definition := lit "A protocol: for transferring data" |}].
Proof. reflexivity. Qed.

(** C10. Whenever the key-value path is taken (the topic has a colon
    and a line feed), the line filter keeps at least one line, the list
    of pairs is not empty, and the handler does not throw "Invalid
    'Term: Definition' format.". *)
Theorem key_value_path_has_pairs (toLowerCase : jsstring -> jsstring)
    (ai : Prompt -> option jsstring) (topic : jsstring) :
  isKeyValueInput topic = true ->
  colonLines topic <> [] /\
  termDefPairs topic <> [] /\
  generateFlashcards toLowerCase ai topic <> inl InvalidFormat.
Proof.
  intros Hkv. pose proof Hkv as Hc. unfold isKeyValueInput in Hc.
  apply andb_true_iff in Hc as [Hc _]. apply includes_In in Hc.
  pose proof (colonLines_not_nil topic Hc) as Hlines.
  assert (termDefPairs topic <> []) as Hpairs.
  { unfold termDefPairs. by destruct (colonLines topic). }
  repeat split; [done.. |].
  unfold generateFlashcards. rewrite Hkv.
  destruct (termDefPairs topic) as [|p ps] eqn:E; [done |]. simpl.
  destruct (ai _); [apply checkNonEmpty_not_invalid | done].
Qed.

Lemma key_value_path_has_pairs_witness :
  colonLines catDogInput <> [] /\
  termDefPairs catDogInput <> [] /\
  generateFlashcards asciiLower (answering catDogAnswer) catDogInput
  <> inl InvalidFormat.
Proof.
  apply (key_value_path_has_pairs asciiLower (answering catDogAnswer)
                                  catDogInput).
  reflexivity.
Defined.

(** C6. In the free-form path a line with fewer than three
    colon-separated parts gives no record and no error: the records are
    those of the non-blank lines with at least three parts, in order,
    and as soon as one line has three parts the handler returns these
    records, whatever short lines stand beside it.  Only when no
    non-blank line has three parts does the handler fail, with "Could
    not generate flashcards", instead of returning an empty list. *)
Theorem free_form_short_lines (flashcardsText : jsstring) :
  (forall line : jsstring,
      (length (split colon line) < 3)%nat -> parseTriplet line = None) /\
  Forall2 (fun (line : jsstring) card =>
             exists (e t : jsstring) (rest : list jsstring),
               split colon line = e :: t :: rest /\ rest <> [] /\
               card = {| emoji := trim e; term := trim t;
                         definition := trim (join colon rest) |})
          (filter (fun line : jsstring =>
                     trim line <> [] /\
                     (3 <= length (split colon line))%nat)
                  (split newline flashcardsText))
          (freeFormCards flashcardsText) /\
  ((forall line : jsstring,
       In line (split newline flashcardsText) -> trim line <> [] ->
       (length (split colon line) < 3)%nat) ->
   freeFormCards flashcardsText = [] /\
   forall toLowerCase ai topic,
     isKeyValueInput topic = false ->
     ai (TopicPrompt topic) = Some flashcardsText ->
     generateFlashcards toLowerCase ai topic = inl CouldNotGenerate) /\
  (forall line : jsstring,
      In line (split newline flashcardsText) ->
      (3 <= length (split colon line))%nat ->
      freeFormCards flashcardsText <> [] /\
      forall toLowerCase ai topic,
        isKeyValueInput topic = false ->
        ai (TopicPrompt topic) = Some flashcardsText ->
        generateFlashcards toLowerCase ai topic
        = inr (freeFormCards flashcardsText)).
Proof.
  split; [exact parseTriplet_short | split; [| split]].
  - unfold freeFormCards. rewrite nonBlankLines_filter.
    rewrite (list_filter_iff _
               (fun line : jsstring =>
                  (3 <= length (split colon line))%nat /\ trim line <> []))
      by (intros ?; tauto).
    rewrite <- list_filter_filter.
    eapply Forall2_impl; [apply omap_parseTriplet |].
    intros line card. apply parseTriplet_Some.
  - intros Hshort.
    assert (freeFormCards flashcardsText = []) as Hnil.
    { unfold freeFormCards, nonBlankLines.
      assert (forall line, In line (split newline flashcardsText) ->
                           nonEmpty (trim line) = true ->
                           parseTriplet line = None) as Hnone.
      { intros line Hin Hne. apply parseTriplet_short.
        apply Hshort; [done | by apply nonEmpty_true]. }
      induction (split newline flashcardsText) as [|line lines IH];
        [done |].
      simpl. destruct (nonEmpty (trim line)) eqn:E; simpl.
      - rewrite Hnone; [| by left | done].
        apply IH. intros l Hl. apply Hshort. by right.
        intros l Hl. apply Hnone. by right.
      - apply IH. intros l Hl. apply Hshort. by right.
        intros l Hl. apply Hnone. by right. }
    split; [done |]. intros lower ai topic Hkv Hai.
    unfold generateFlashcards. rewrite Hkv, Hai, Hnil. reflexivity.
  - intros line Hline Hlen.
    destruct (parseTriplet_long line Hlen) as (e & t & rest & _ & _ & Hcard).
    pose proof (freeFormCards_In flashcardsText line _ Hline Hcard) as Hin.
    assert (freeFormCards flashcardsText <> []) as Hne
        by (by destruct (freeFormCards flashcardsText)).
    split; [done |]. intros lower ai topic Hkv Hai.
    unfold generateFlashcards. rewrite Hkv, Hai. unfold checkNonEmpty.
    by destruct (freeFormCards flashcardsText).
Qed.

Lemma free_form_short_lines_witness :
  (freeFormCards noTriplets = [] /\
   generateFlashcards asciiLower (answering noTriplets) (lit "numbers")
   = inl CouldNotGenerate) /\
  freeFormCards MoreExamples.chattyAnswer <> [] /\
  generateFlashcards asciiLower (answering MoreExamples.chattyAnswer)
                     (lit "numbers")
  = inr (freeFormCards MoreExamples.chattyAnswer).
Proof.
  split.
  - destruct (free_form_short_lines noTriplets) as (_ & _ & H & _).
    destruct H as [Hnil Hgen].
    + intros line Hin _. vm_compute in Hin.
      destruct Hin as [<-|[<-|[<-|[]]]]; vm_compute; lia.
    + split; [exact Hnil |]. by apply Hgen.
  - destruct (free_form_short_lines MoreExamples.chattyAnswer)
      as (_ & _ & _ & H).
    destruct (H (lit "1: one: the first")) as [Hne Hgen].
    + right. left. reflexivity.
    + vm_compute. lia.
    + split; [exact Hne |]. by apply Hgen.
Defined.

(** C5. The records of the key-value path keep the term and the
    definition of each pair as they were typed; no emoji is the empty
    string; a term that no line of the answer equals up to case gets
    the fallback emoji; and a line of the answer whose term equals an
    original term only up to case gives that term its emoji (when the
    term is the first of the original terms with that lower-case form,
    no later line of the answer has it, and neither the term nor the
    emoji is empty). *)
Theorem emoji_matching (toLowerCase : jsstring -> jsstring)
    (pairs : list TermDef) (emojiResponse : jsstring) :
  Forall2 (fun pair card =>
             term card = pair_term pair /\
             definition card = pair_definition pair /\
             emoji card <> [] /\
             ((forall line : jsstring,
                  In line (colonLines emojiResponse) ->
                  toLowerCase (pair_term (parsePair line))
                  <> toLowerCase (pair_term pair)) ->
              emoji card = fallbackEmoji))
          pairs (keyValueCards toLowerCase pairs emojiResponse) /\
  (forall (before after : list TermDef) (pair : TermDef)
          (earlier later : list jsstring) (line : jsstring),
      pairs = before ++ pair :: after ->
      colonLines emojiResponse = earlier ++ line :: later ->
      toLowerCase (pair_term (parsePair line))
      = toLowerCase (pair_term pair) ->
      (forall q, In q before ->
                 toLowerCase (pair_term q) <> toLowerCase (pair_term pair)) ->
      (forall l : jsstring,
          In l later ->
          toLowerCase (pair_term (parsePair l))
          <> toLowerCase (pair_term pair)) ->
      pair_term pair <> [] ->
      pair_definition (parsePair line) <> [] ->
      keyValueCards toLowerCase pairs emojiResponse !! length before
      = Some {| emoji := pair_definition (parsePair line);
                term := pair_term pair;
                definition := pair_definition pair |}).
Proof.
  split.
  - unfold keyValueCards. apply Forall2_map. intros pair _. simpl.
    repeat split; [apply emojiOr_nonempty |].
    intros Hno. unfold emojiOr, emojiMap.
    destruct (foldl _ _ _ !! pair_term pair) as [e|] eqn:E; [| done].
    apply fold_origin in E as [E|(line & Hin & Hfind & _)]; [done |].
    apply findOriginal_Some in Hfind as [_ Heq].
    by destruct (Hno line Hin).
  - intros before after pair earlier later line -> Hlines Heq Hfirst Hlater
           Hterm Hemoji.
    unfold keyValueCards.
    rewrite map_app. simpl.
    assert (length before
            = length (List.map
                        (fun p =>
                           {| emoji :=
                                emojiOr
                                  (emojiMap toLowerCase
                                     (List.map pair_term
                                        (before ++ pair :: after))
                                     emojiResponse) (pair_term p);
                              term := pair_term p;
                              definition := pair_definition p |}) before))
      as Hlen by (by rewrite length_map).
    rewrite Hlen at 1. rewrite list_lookup_middle by done. do 2 f_equal.
    unfold emojiOr, emojiMap. rewrite Hlines.
    rewrite (fold_last toLowerCase _ earlier later line ∅ (pair_term pair)).
    + change (trim (join colon (drop 1 (split colon line))))
        with (pair_definition (parsePair line)).
      by destruct (pair_definition (parsePair line)).
    + rewrite map_app, map_cons. apply findOriginal_first; [done |].
      intros q Hq. apply in_map_iff in Hq as (p & <- & Hp).
      rewrite Heq. by apply Hfirst.
    + done.
    + intros l Hl Hfind. apply findOriginal_Some in Hfind as [_ Hf].
      by destruct (Hlater l Hl).
Qed.

Lemma emoji_matching_witness :
  keyValueCards asciiLower (termDefPairs catDogInput) catDogAnswer !! 0%nat
  = Some {| emoji := lit "=^.^="; term := lit "Cat";
            definition := lit "A small domesticated feline" |} /\
  exists card,
    keyValueCards asciiLower (termDefPairs catDogInput) zebraAnswer !! 0%nat
    = Some card /\
    emoji card = fallbackEmoji.
Proof.
  split.
  - destruct (emoji_matching asciiLower (termDefPairs catDogInput) catDogAnswer)
      as [_ H].
    apply (H [] [parsePair (lit "Dog: A domesticated canine")]
             (parsePair (lit "Cat: A small domesticated feline"))
             [] [lit "Dog: U^x^U"] (lit "cat: =^.^=")).
    + reflexivity.
    + reflexivity.
    + reflexivity.
    + intros q [].
    + intros l [<-|[]]. vm_compute. discriminate.
    + vm_compute. discriminate.
    + vm_compute. discriminate.
  - destruct (emoji_matching asciiLower (termDefPairs catDogInput) zebraAnswer)
      as [H _].
    destruct (keyValueCards asciiLower (termDefPairs catDogInput) zebraAnswer
                !! 0%nat) as [card|] eqn:Hcard; [| vm_compute in Hcard; done].
    exists card. split; [done |].
    pose proof (Forall2_lookup_lr _ _ _ 0%nat
                  (parsePair (lit "Cat: A small domesticated feline"))
                  card H) as H0.
    destruct H0 as (_ & _ & _ & Hfallback).
    + vm_compute. reflexivity.
    + exact Hcard.
    + apply Hfallback. intros line Hin. vm_compute in Hin.
      destruct Hin as [<-|[]]. vm_compute. discriminate.
Defined.

End ParserSpec.

(** * Further properties of the handlers *)

(** ** The view state *)

Module ViewProps.
Import Parser View ViewFacts Derived Examples.

Lemma setActive_setActive (a b : bool) (c : Card) :
  setActive a (setActive b c) = setActive a c.
Proof. reflexivity. Qed.

(** The cards after [updateCardVisibility], position by position. *)
Lemma update_cards st :
  cards (updateCardVisibility st)
  = imap (fun k c =>
            setActive (isFocusMode st && (Z.of_nat k =? currentCardIndex st)) c)
         (cards st).
Proof.
  apply list_eq. intros k. rewrite update_lookup.
  by rewrite list_lookup_imap.
Qed.

Lemma activeCount_imap (focus : bool) (index : Z) (off : nat) (cs : list Card) :
  activeCount
    (imap (fun k c => setActive (focus && (Z.of_nat (off + k) =? index)) c) cs)
  = if focus && (Z.of_nat off <=? index)
       && (index <? Z.of_nat (off + length cs))
    then 1%nat else 0%nat.
Proof.
  revert off. induction cs as [|c cs IH]; intros off.
  - cbn [imap length]. destruct focus; cbn [andb]; [| done].
    destruct (Z.leb_spec (Z.of_nat off) index),
             (Z.ltb_spec index (Z.of_nat (off + 0))); cbn [andb]; try done; lia.
  - rewrite imap_cons. unfold activeCount. rewrite filter_cons.
    rewrite (imap_ext _
               (fun k c =>
                  setActive (focus && (Z.of_nat (S off + k) =? index)) c))
      by (intros k x _; cbv [compose];
          by replace (off + S k)%nat with (S off + k)%nat by lia).
    specialize (IH (S off)). unfold activeCount in IH.
    cbn [active setActive].
    replace (length (c :: cs)) with (S (length cs)) by done.
    destruct focus; cbn [andb] in *.
    + destruct (Z.eqb_spec (Z.of_nat (off + 0)) index) as [Heq|Hne].
      * rewrite decide_True by done. cbn [length]. rewrite IH.
        destruct (Z.leb_spec (Z.of_nat (S off)) index); [lia |].
        destruct (Z.leb_spec (Z.of_nat off) index); [| lia].
        destruct (Z.ltb_spec index (Z.of_nat (off + S (length cs))));
          [done | lia].
      * rewrite decide_False by done. rewrite IH.
        destruct (Z.leb_spec (Z.of_nat (S off)) index),
                 (Z.leb_spec (Z.of_nat off) index),
                 (Z.ltb_spec index (Z.of_nat (S off + length cs))),
                 (Z.ltb_spec index (Z.of_nat (off + S (length cs))));
          cbn [andb]; try done; lia.
    + rewrite decide_False by done. by rewrite IH.
Qed.

Lemma activeCount_update (st : ViewState) :
  activeCount (cards (updateCardVisibility st))
  = if isFocusMode st && (0 <=? currentCardIndex st)
       && (currentCardIndex st <? Z.of_nat (length (cards st)))
    then 1%nat else 0%nat.
Proof.
  rewrite update_cards.
  apply (activeCount_imap (isFocusMode st) (currentCardIndex st) 0).
Qed.

(** X2. After [updateCardVisibility] exactly one card is active when the
    page is in focus mode and the index is one of the list, and no card
    is active otherwise (grid mode, no card, or an index past the end). *)
Theorem update_active_count (st : ViewState) :
  activeCount (cards (updateCardVisibility st))
  = if isFocusMode st && (0 <=? currentCardIndex st)
       && (currentCardIndex st <? Z.of_nat (length (cards st)))
    then 1%nat else 0%nat.
Proof. apply activeCount_update. Qed.

(** X1. [updateCardVisibility] is idempotent: running it a second time
    changes nothing. *)
Theorem update_idempotent (st : ViewState) :
  updateCardVisibility (updateCardVisibility st) = updateCardVisibility st.
Proof.
  unfold updateCardVisibility at 1.
  rewrite update_length, update_mode, update_index.
  unfold updateCardVisibility.
  destruct (Nat.ltb_spec 0 (length (cards st))) as [Hpos|Hzero];
    cbn [negb].
  - destruct (isFocusMode st); cbn [andb cards cardCounter].
    + f_equal; try (by rewrite length_imap).
      apply list_eq. intros k. rewrite !list_lookup_imap.
      by destruct (cards st !! k).
    + f_equal. apply list_eq. intros k. rewrite !list_lookup_fmap.
      by destruct (cards st !! k).
  - rewrite andb_false_r. cbn [cards cardCounter]. f_equal.
    by rewrite !orb_true_r.
Qed.

(** *** At most one active card *)

Lemma update_activeInv (st : ViewState) : activeInv (updateCardVisibility st).
Proof.
  unfold activeInv. rewrite activeCount_update, update_mode.
  destruct (isFocusMode st); cbn [andb].
  - destruct (Z.leb_spec 0 (currentCardIndex st)),
             (Z.ltb_spec (currentCardIndex st) (Z.of_nat (length (cards st)))),
             (Nat.ltb_spec 0 (length (cards st)));
      cbn [andb]; split; try done; try lia.
  - split; [lia | done].
Qed.

Lemma activeCount_alter (f : Card -> Card) (k : nat) (cs : list Card) :
  (forall c, active (f c) = active c) ->
  activeCount (alter f k cs) = activeCount cs.
Proof.
  intros Hf. unfold activeCount. revert k.
  induction cs as [|c cs IH]; intros k; [done |].
  destruct k as [|k]; simpl; rewrite !filter_cons.
  - rewrite Hf. by destruct (decide (active c = true)).
  - change (list_alter f k cs) with (alter f k cs).
    destruct (decide (active c = true)); simpl; by rewrite IH.
Qed.

Lemma activeCount_perm (cs cs' : list Card) :
  cs ≡ₚ cs' -> activeCount cs = activeCount cs'.
Proof. intros Hperm. unfold activeCount. by rewrite Hperm. Qed.

Lemma same_cards_activeInv (st st' : ViewState) :
  isFocusMode st' = isFocusMode st ->
  activeCount (cards st') = activeCount (cards st) ->
  activeInv st -> activeInv st'.
Proof. unfold activeInv. by intros -> ->. Qed.

Lemma step_activeInv (st st' : ViewState) :
  step st st' -> activeInv st -> activeInv st'.
Proof.
  intros Hstep Hinv.
  destruct Hstep as [lower ai input st| st | d st | k st
                     | k st | k st | rnd st st' Hrnd Hsh].
  - unfold generateClick. destruct (negb _).
    + split; [unfold activeCount; simpl; lia | done].
    + destruct (generateFlashcards _ _ _); apply update_activeInv.
  - unfold modeSwitchClick. destruct (negb _); apply update_activeInv.
  - unfold navigateCards. destruct (_ <=? 1); [done |].
    apply update_activeInv.
  - apply (same_cards_activeInv st); [done | | done].
    by apply activeCount_alter.
  - apply update_activeInv.
  - apply (same_cards_activeInv st); [done | | done].
    by apply activeCount_alter.
  - unfold shuffleClick in Hsh.
    destruct (ShuffleFacts.shuffle_perm rnd (cards st) Hrnd)
      as (out & Hout & Hperm).
    rewrite Hout in Hsh. injection Hsh as <-.
    apply (same_cards_activeInv st); [done | | done].
    by apply activeCount_perm.
Qed.

(** X3. In every state a page session can reach, the index is not
    negative, at most one card is active, and no card is active in grid
    mode. *)
Theorem reachable_one_active (st : ViewState) :
  reachable st ->
  0 <= currentCardIndex st /\
  (activeCount (cards st) <= 1)%nat /\
  (isFocusMode st = false -> activeCount (cards st) = 0%nat).
Proof.
  intros Hreach. split; [by apply reachable_index_nonneg |].
  induction Hreach as [st (_ & _ & Hnil)|st st' _ IH Hstep].
  - rewrite Hnil. split; [unfold activeCount; simpl; lia | done].
  - by apply (step_activeInv st).
Qed.

Lemma reachable_one_active_witness :
  0 <= currentCardIndex deletingFocused /\
  (activeCount (cards deletingFocused) <= 1)%nat /\
  (isFocusMode deletingFocused = false ->
   activeCount (cards deletingFocused) = 0%nat).
Proof.
  apply (reachable_one_active deletingFocused).
  unfold deletingFocused, focusedOnLast, threeCards.
  repeat (eapply reach_step; [| constructor]).
  apply reach_load. by repeat split.
Defined.

(** *** Removing a card in focus mode *)

Lemma removeCard_length (k : nat) (st : ViewState) :
  (k < length (cards st))%nat ->
  length (cards (removeCard k st)) = (length (cards st) - 1)%nat.
Proof.
  intros Hk. unfold removeCard. rewrite update_length. simpl.
  apply length_delete. by apply lookup_lt_is_Some.
Qed.

(** X4. In focus mode with a valid index, the removal of a card leaves
    the index valid exactly when the card was the only one or the index
    was not the last position. *)
Theorem removeCard_index_valid_iff (k : nat) (st : ViewState) :
  isFocusMode st = true ->
  (k < length (cards st))%nat ->
  0 <= currentCardIndex st < Z.of_nat (length (cards st)) ->
  focusIndexValid (removeCard k st) <->
  (length (cards st) = 1%nat \/
   currentCardIndex st < Z.of_nat (length (cards st)) - 1).
Proof.
  intros Hfocus Hk Hidx. unfold focusIndexValid.
  rewrite cards_nil_length, removeCard_length by done.
  rewrite removeCard_index. unfold removeCard at 1.
  rewrite update_mode. simpl. rewrite Hfocus. simpl.
  rewrite length_delete by (by apply lookup_lt_is_Some).
  destruct (Nat.ltb_spec 0 (length (cards st) - 1)) as [Hpos|Hzero]; simpl.
  - split.
    + intros Hvalid. right. assert (length (cards st) - 1 <> 0)%nat by lia.
      specialize (Hvalid eq_refl H). lia.
    + intros [Hone|Hlt] _ _; lia.
  - split; [intros _; left; lia | done].
Qed.

Lemma removeCard_index_valid_iff_witness :
  focusIndexValid (removeCard 0 (modeSwitchClick threeCards)) <->
  (length (cards (modeSwitchClick threeCards)) = 1%nat \/
   currentCardIndex (modeSwitchClick threeCards)
   < Z.of_nat (length (cards (modeSwitchClick threeCards))) - 1).
Proof.
  apply (removeCard_index_valid_iff 0 (modeSwitchClick threeCards)).
  - reflexivity.
  - vm_compute. lia.
  - vm_compute. by split.
Defined.

(** X5. In focus mode, when a card is removed and the index stays
    valid, the card that is active afterwards is the one that was at the
    index if the removed card came after it, and the one that followed
    it otherwise: the removal of the focused card or of an earlier card
    moves the focus to the next card. *)
Theorem removeCard_active_card (k i : nat) (st : ViewState) :
  isFocusMode st = true ->
  currentCardIndex st = Z.of_nat i ->
  (k < length (cards st))%nat ->
  (S i < length (cards st))%nat ->
  cards (removeCard k st) !! i
  = setActive true <$> cards st !! (if decide (i < k)%nat then i else S i).
Proof.
  intros Hfocus Hidx Hk Hi. unfold removeCard.
  rewrite update_lookup. simpl. rewrite Hfocus, Hidx, Z.eqb_refl. simpl.
  by rewrite list_lookup_delete.
Qed.

Lemma removeCard_active_card_witness :
  cards (removeCard 0 (modeSwitchClick threeCards)) !! 0%nat
  = setActive true <$> cards (modeSwitchClick threeCards) !! 1%nat.
Proof.
  apply (removeCard_active_card 0 0 (modeSwitchClick threeCards)).
  - reflexivity.
  - reflexivity.
  - vm_compute. lia.
  - vm_compute. lia.
Defined.

(** *** Navigation *)

Lemma navigate_unfold (d : Direction) (st : ViewState) :
  (2 <= length (cards st))%nat ->
  navigateCards d st
  = updateCardVisibility
      (withMode (isFocusMode st)
         (match d with
          | next => Z.rem (currentCardIndex st + 1)
                          (Z.of_nat (length (cards st)))
          | prev => Z.rem (currentCardIndex st - 1
                           + Z.of_nat (length (cards st)))
                          (Z.of_nat (length (cards st)))
          end)
         (withCards (unflipAt (currentCardIndex st) (cards st)) st)).
Proof.
  intros Hlen. unfold navigateCards.
  by destruct (Z.leb_spec (Z.of_nat (length (cards st))) 1); [lia |].
Qed.

Lemma navigate_length (d : Direction) (st : ViewState) :
  length (cards (navigateCards d st)) = length (cards st).
Proof.
  unfold navigateCards. destruct (_ <=? 1); [done |].
  rewrite update_length. simpl. apply unflipAt_length.
Qed.

Lemma navigate_index (d : Direction) (st : ViewState) :
  (2 <= length (cards st))%nat -> 0 <= currentCardIndex st ->
  currentCardIndex (navigateCards d st)
  = (currentCardIndex st + match d with next => 1 | prev => -1 end)
      mod Z.of_nat (length (cards st)).
Proof.
  intros Hlen Hidx. rewrite navigate_unfold by done.
  rewrite update_index. simpl.
  destruct d; rewrite Z.rem_mod_nonneg by lia; [done |].
  replace (currentCardIndex st - 1 + Z.of_nat (length (cards st)))
    with (currentCardIndex st + -1 + 1 * Z.of_nat (length (cards st)))
    by lia.
  apply Z_mod_plus_full.
Qed.

(** X6. With two cards or more, a navigation click leaves a valid index
    whatever the index was before, also one past the end, and in focus
    mode exactly one card is then active. *)
Theorem navigate_restores_index (d : Direction) (st : ViewState) :
  (2 <= length (cards st))%nat -> 0 <= currentCardIndex st ->
  0 <= currentCardIndex (navigateCards d st)
    < Z.of_nat (length (cards (navigateCards d st))) /\
  (isFocusMode st = true ->
   activeCount (cards (navigateCards d st)) = 1%nat).
Proof.
  intros Hlen Hidx.
  pose proof (navigate_index_range d st Hlen Hidx) as Hrange.
  split; [done |]. intros Hfocus.
  rewrite navigate_length in Hrange. revert Hrange.
  rewrite navigate_unfold by done.
  rewrite update_index, activeCount_update. simpl.
  rewrite unflipAt_length, Hfocus. intros [Hlo Hhi].
  apply Z.leb_le in Hlo. apply Z.ltb_lt in Hhi. by rewrite Hlo, Hhi.
Qed.

Lemma navigate_restores_index_witness :
  0 <= currentCardIndex (navigateCards prev (removeCard 2 deletingFocused))
    < Z.of_nat (length (cards (navigateCards prev
                                 (removeCard 2 deletingFocused)))) /\
  (isFocusMode (removeCard 2 deletingFocused) = true ->
   activeCount (cards (navigateCards prev (removeCard 2 deletingFocused)))
   = 1%nat).
Proof.
  apply (navigate_restores_index prev (removeCard 2 deletingFocused)).
  - vm_compute. lia.
  - vm_compute. discriminate.
Defined.

(** X7. With two cards or more and a valid index, "next" followed by
    "prev", and "prev" followed by "next", bring the index back. *)
Theorem navigate_there_and_back (st : ViewState) :
  (2 <= length (cards st))%nat ->
  0 <= currentCardIndex st < Z.of_nat (length (cards st)) ->
  currentCardIndex (navigateCards prev (navigateCards next st))
  = currentCardIndex st /\
  currentCardIndex (navigateCards next (navigateCards prev st))
  = currentCardIndex st.
Proof.
  intros Hlen Hidx.
  assert (forall d, 0 <= currentCardIndex (navigateCards d st)) as Hnn.
  { intros d. apply navigate_index_nonneg. lia. }
  split.
  - rewrite navigate_index by (rewrite ?navigate_length; done).
    rewrite navigate_length, navigate_index by (done || lia).
    rewrite Zplus_mod_idemp_l.
    replace (currentCardIndex st + 1 + -1) with (currentCardIndex st) by lia.
    apply Z.mod_small. lia.
  - rewrite navigate_index by (rewrite ?navigate_length; done).
    rewrite navigate_length, navigate_index by (done || lia).
    rewrite Zplus_mod_idemp_l.
    replace (currentCardIndex st + -1 + 1) with (currentCardIndex st) by lia.
    apply Z.mod_small. lia.
Qed.

Lemma navigate_there_and_back_witness :
  currentCardIndex (navigateCards prev (navigateCards next focusedOnLast))
  = currentCardIndex focusedOnLast /\
  currentCardIndex (navigateCards next (navigateCards prev focusedOnLast))
  = currentCardIndex focusedOnLast.
Proof.
  apply (navigate_there_and_back focusedOnLast).
  - vm_compute. lia.
  - vm_compute. by split.
Defined.

(** *** Flipping a card *)

(** X8. A second click on a card undoes the first: the state is the one
    before the two clicks. *)
Theorem toggleFlip_twice (k : nat) (st : ViewState) :
  toggleFlip k (toggleFlip k st) = st.
Proof.
  destruct st as [focus idx cs cls txt h1 h2 h3 cnt].
  unfold toggleFlip, withCards. simpl. f_equal.
  rewrite list_alter_alter_eq. apply list_alter_id.
  intros [content flipped removing active]. unfold setFlipped. simpl.
  by rewrite negb_involutive.
Qed.

(** *** The "generate" click *)

Lemma trimStart_fixed (t : jsstring) :
  (forall c rest, t = c :: rest -> Js.isWhiteSpace c = false) ->
  Js.trimStart t = t.
Proof.
  intros Hhd. destruct t as [|c rest]; [done |].
  simpl. by rewrite (Hhd c rest eq_refl).
Qed.

(** [trim] is idempotent. *)
Lemma trim_idem (s : jsstring) : Js.trim (Js.trim s) = Js.trim s.
Proof.
  destruct (JsFacts.trim_spec s) as (l & r & _ & _ & _ & Hhd & Hlast).
  unfold Js.trim at 1. rewrite (trimStart_fixed (Js.trim s)) by done.
  unfold Js.trimEnd. rewrite trimStart_fixed; [apply rev_involutive |].
  intros c rest Hrev. apply (Hlast c (rev rest)).
  rewrite <- (rev_involutive (Js.trim s)), Hrev. done.
Qed.

Lemma trim_blank (s : jsstring) :
  (forall c, In c s -> Js.isWhiteSpace c = true) -> Js.trim s = [].
Proof.
  intros Hws. destruct (JsFacts.trim_spec s) as (l & r & _ & _ & _ & Hhd & _).
  destruct (Js.trim s) as [|c rest] eqn:E; [done |].
  assert (In c s) as Hin by (apply JsFacts.trim_incl; rewrite E; by left).
  specialize (Hws c Hin). by rewrite (Hhd c rest eq_refl) in Hws.
Qed.

Lemma generateFlashcards_nonempty toLowerCase ai topic flashcards :
  generateFlashcards toLowerCase ai topic = inr flashcards ->
  flashcards <> [].
Proof.
  assert (forall cs, checkNonEmpty cs = inr flashcards -> flashcards <> [])
    as Hcheck.
  { intros cs. unfold checkNonEmpty. destruct cs; simpl; [done |].
    by intros [= <-]. }
  unfold generateFlashcards.
  destruct (isKeyValueInput topic).
  - destruct (length (termDefPairs topic) =? 0)%nat; [done |].
    destruct (ai _); [apply Hcheck | done].
  - destruct (ai _); [apply Hcheck | done].
Qed.

(** X9. A "generate" click with an input that is not blank always ends
    in grid mode at index 0 with the navigation bar hidden, and the
    cards that were on the page are gone.  When the generation succeeds
    the page holds one fresh card per record (at least one) and the mode
    and shuffle buttons are shown; when it fails the page holds no card
    and the buttons are hidden. *)
Theorem generate_outcome (toLowerCase : jsstring -> jsstring)
    (ai : Prompt -> option jsstring) (input : jsstring) (c : N)
    (st : ViewState) :
  In c input -> Js.isWhiteSpace c = false ->
  isFocusMode (generateClick toLowerCase ai input st) = false /\
  currentCardIndex (generateClick toLowerCase ai input st) = 0 /\
  focusNavHidden (generateClick toLowerCase ai input st) = true /\
  match generateFlashcards toLowerCase ai (Js.trim input) with
  | inr flashcards =>
      flashcards <> [] /\
      cards (generateClick toLowerCase ai input st) = newCard <$> flashcards /\
      modeSwitchHidden (generateClick toLowerCase ai input st) = false /\
      shuffleHidden (generateClick toLowerCase ai input st) = false
  | inl _ =>
      cards (generateClick toLowerCase ai input st) = [] /\
      modeSwitchHidden (generateClick toLowerCase ai input st) = true /\
      shuffleHidden (generateClick toLowerCase ai input st) = true
  end.
Proof.
  intros Hin Hc. unfold generateClick.
  assert (Js.truthy (Js.trim input) = true) as Htopic
      by (by apply (JsFacts.nonEmpty_trim c)).
  rewrite Htopic. cbn [negb].
  destruct (generateFlashcards toLowerCase ai (Js.trim input))
    as [e|flashcards] eqn:E.
  - by repeat split.
  - pose proof (generateFlashcards_nonempty _ _ _ _ E) as Hne.
    destruct flashcards as [|f fs]; [done |].
    repeat split; try done.
    unfold updateCardVisibility, addCards. simpl. f_equal.
    rewrite <- list_fmap_compose. by apply list_fmap_ext.
Qed.

Lemma generate_outcome_witness :
  isFocusMode (generateClick asciiLower (answering twoTriplets)
                 (Js.lit "numbers") focusedOnLast) = false /\
  length (cards (generateClick asciiLower (answering twoTriplets)
                   (Js.lit "numbers") focusedOnLast)) = 2%nat.
Proof.
  destruct (generate_outcome asciiLower (answering twoTriplets)
              (Js.lit "numbers") 110%N focusedOnLast)
    as (Hmode & _ & _ & Hcards).
  - by left.
  - reflexivity.
  - split; [exact Hmode |].
    change (generateFlashcards asciiLower (answering twoTriplets)
              (Js.trim (Js.lit "numbers")))
      with (@inr GenError _ (freeFormCards twoTriplets)) in Hcards.
    destruct Hcards as (_ & -> & _). reflexivity.
Defined.

(** X10. A "generate" click with a blank input (empty or white space
    only) empties the container and touches nothing else: the mode, the
    index and the visibility of the buttons stay as they were, so a page
    in focus mode is left in focus mode without cards. *)
Theorem generate_blank (toLowerCase : jsstring -> jsstring)
    (ai : Prompt -> option jsstring) (input : jsstring) (st : ViewState) :
  (forall c, In c input -> Js.isWhiteSpace c = true) ->
  generateClick toLowerCase ai input st = withCards [] st.
Proof.
  intros Hws. unfold generateClick. by rewrite trim_blank.
Qed.

Lemma generate_blank_witness :
  generateClick asciiLower (answering twoTriplets) (Js.lit "  ") focusedOnLast
  = withCards [] focusedOnLast /\
  isFocusMode (withCards [] focusedOnLast) = true.
Proof.
  split; [| reflexivity].
  apply (generate_blank asciiLower (answering twoTriplets) (Js.lit "  ")
                        focusedOnLast).
  intros c [<-|[<-|[]]]; reflexivity.
Defined.

(** X11. White space around the text of the input box never changes
    what a "generate" click does. *)
Theorem generate_ignores_outer_space (toLowerCase : jsstring -> jsstring)
    (ai : Prompt -> option jsstring) (input : jsstring) (st : ViewState) :
  generateClick toLowerCase ai (Js.trim input) st
  = generateClick toLowerCase ai input st.
Proof. unfold generateClick. by rewrite trim_idem. Qed.

End ViewProps.

(** ** The shuffle click *)

Module ShuffleProps.
Import Shuffle ShuffleFacts View Examples.

(** X12. For every sequence of draws in range, the card that is last
    before a shuffle click is last after it; only the cards before it
    are reordered. *)
Theorem shuffle_never_moves_last (rnd : nat -> nat) (st : ViewState)
    (init : list Card) (x : Card) :
  (forall i, (rnd i <= i)%nat) ->
  cards st = init ++ [x] ->
  exists st' init',
    shuffleClick rnd st = Some st' /\
    cards st' = init' ++ [x] /\
    init' ≡ₚ init.
Proof.
  intros Hrnd Hcards. unfold shuffleClick.
  destruct (shuffle_perm rnd (cards st) Hrnd) as (out & Hout & Hperm).
  rewrite Hout. rewrite Hcards in Hout, Hperm.
  destruct (shuffle_keeps_last rnd init x out Hrnd Hout) as (init' & ->).
  exists (withCards (init' ++ [x]) st), init'. repeat split.
  by apply Permutation_app_inv_r in Hperm.
Qed.

Lemma shuffle_never_moves_last_witness :
  exists st' init',
    shuffleClick drawZeroAtTwo threeCards = Some st' /\
    cards st' = init' ++ [newCard {| Parser.emoji := Js.lit "3";
                                     Parser.term := Js.lit "three";
                                     Parser.definition := Js.lit "the third" |}]
    /\
    init' ≡ₚ [newCard {| Parser.emoji := Js.lit "1";
                         Parser.term := Js.lit "one";
                         Parser.definition := Js.lit "the first" |};
              newCard {| Parser.emoji := Js.lit "2";
                         Parser.term := Js.lit "two";
                         Parser.definition := Js.lit "the second" |}].
Proof.
  apply (shuffle_never_moves_last drawZeroAtTwo threeCards).
  - intros i. unfold drawZeroAtTwo. destruct (i =? 2)%nat; lia.
  - reflexivity.
Defined.

End ShuffleProps.

(** ** The parser *)

Module ParserProps.
Import Js JsFacts Parser ParserFacts EmojiFacts TrimFacts Examples MoreExamples.

(** X13. A line made of an emoji, a term and a definition joined by
    colons, where neither the emoji nor the term has a colon, is parsed
    back into the three trimmed fields; colons of the definition are
    kept. *)
Theorem parseTriplet_joined (e t d : jsstring) :
  ~ In colon e -> ~ In colon t ->
  parseTriplet (e ++ colon :: t ++ colon :: d)
  = Some {| emoji := trim e; term := trim t; definition := trim d |}.
Proof.
  intros He Ht. unfold parseTriplet.
  rewrite split_first by done. rewrite split_first by done.
  assert (1 <= length (split colon d))%nat as Hne.
  { pose proof (split_not_nil colon d).
    destruct (split colon d); [done | simpl; lia]. }
  cbn [length].
  destruct (Nat.leb_spec 3 (S (S (length (split colon d))))); [| lia].
  replace (drop 2 (e :: t :: split colon d)) with (split colon d) by done.
  by rewrite join_split.
Qed.

Lemma parseTriplet_joined_witness :
  parseTriplet (lit "1 " ++ colon :: lit " one " ++ colon :: lit " a: b")
  = Some {| emoji := trim (lit "1 "); term := trim (lit " one ");
            definition := trim (lit " a: b") |}.
Proof.
  apply (parseTriplet_joined (lit "1 ") (lit " one ") (lit " a: b")).
  - vm_compute. intros [H|[H|[]]]; discriminate.
  - vm_compute. intros H. repeat (destruct H as [H|H]; [discriminate |]).
    done.
Defined.

(** X14. In key-value mode the content of the answer cannot make the
    generation fail: whenever the service answers, the result is exactly
    one record per line of the topic that has a colon, and there is at
    least one. *)
Theorem key_value_path_succeeds (toLowerCase : jsstring -> jsstring)
    (ai : Prompt -> option jsstring) (topic emojiResponse : jsstring) :
  isKeyValueInput topic = true ->
  ai (EmojiPrompt (List.map pair_term (termDefPairs topic)))
  = Some emojiResponse ->
  generateFlashcards toLowerCase ai topic
  = inr (keyValueCards toLowerCase (termDefPairs topic) emojiResponse) /\
  length (keyValueCards toLowerCase (termDefPairs topic) emojiResponse)
  = length (colonLines topic) /\
  (1 <= length (colonLines topic))%nat.
Proof.
  intros Hkv Hai. pose proof Hkv as Hc. unfold isKeyValueInput in Hc.
  apply andb_true_iff in Hc as [Hc _]. apply includes_In in Hc.
  pose proof (colonLines_not_nil topic Hc) as Hlines.
  assert (length (keyValueCards toLowerCase (termDefPairs topic) emojiResponse)
          = length (colonLines topic)) as Hlen.
  { unfold keyValueCards, termDefPairs. by rewrite !length_map. }
  assert (1 <= length (colonLines topic))%nat as Hpos.
  { destruct (colonLines topic); [done | simpl; lia]. }
  repeat split; [| done..].
  unfold generateFlashcards. rewrite Hkv.
  assert (length (termDefPairs topic) = length (colonLines topic)) as Hp
      by (unfold termDefPairs; by rewrite length_map).
  destruct (Nat.eqb_spec (length (termDefPairs topic)) 0); [lia |].
  rewrite Hai. unfold checkNonEmpty.
  by destruct (Nat.eqb_spec (length (keyValueCards toLowerCase
                                       (termDefPairs topic) emojiResponse)) 0);
    [lia |].
Qed.

Lemma key_value_path_succeeds_witness :
  generateFlashcards asciiLower (answering noTriplets) catDogInput
  = inr (keyValueCards asciiLower (termDefPairs catDogInput) noTriplets) /\
  length (keyValueCards asciiLower (termDefPairs catDogInput) noTriplets)
  = length (colonLines catDogInput) /\
  (1 <= length (colonLines catDogInput))%nat.
Proof.
  apply (key_value_path_succeeds asciiLower (answering noTriplets)
                                 catDogInput noTriplets); reflexivity.
Defined.

(** X15. In the free-form path one line with at least three
    colon-separated parts is enough: the generation succeeds and the
    record of that line is among the cards, whatever the other lines
    are. *)
Theorem one_triplet_suffices (toLowerCase : jsstring -> jsstring)
    (ai : Prompt -> option jsstring) (topic flashcardsText line : jsstring) :
  isKeyValueInput topic = false ->
  ai (TopicPrompt topic) = Some flashcardsText ->
  In line (split newline flashcardsText) ->
  (3 <= length (split colon line))%nat ->
  exists card cards,
    parseTriplet line = Some card /\
    generateFlashcards toLowerCase ai topic = inr cards /\
    In card cards.
Proof.
  intros Hkv Hai Hline Hlen.
  destruct (parseTriplet_long line Hlen) as (e & t & rest & _ & _ & Hcard).
  assert (In colon line) as Hcolon.
  { destruct (includes colon line) eqn:E; [by apply includes_In |].
    apply includes_false in E. rewrite (split_none colon line E) in Hlen.
    simpl in Hlen. lia. }
  assert (In line (nonBlankLines flashcardsText)) as Hnb.
  { unfold nonBlankLines. apply filter_In. split; [done |].
    by apply (nonEmpty_trim colon); [apply colon_not_white |]. }
  eexists. exists (freeFormCards flashcardsText).
  split; [exact Hcard |].
  assert (In {| emoji := trim e; term := trim t;
                definition := trim (join colon rest) |}
             (freeFormCards flashcardsText)) as Hin.
  { apply list_elem_of_In. unfold freeFormCards. apply list_elem_of_omap.
    exists line. split; [by apply list_elem_of_In | done]. }
  split; [| done].
  unfold generateFlashcards. rewrite Hkv, Hai. unfold checkNonEmpty.
  by destruct (freeFormCards flashcardsText).
Qed.

Lemma one_triplet_suffices_witness :
  exists card cards,
    parseTriplet (lit "1: one: the first") = Some card /\
    generateFlashcards asciiLower (answering chattyAnswer) (lit "numbers")
    = inr cards /\
    In card cards.
Proof.
  apply (one_triplet_suffices asciiLower (answering chattyAnswer)
           (lit "numbers") chattyAnswer (lit "1: one: the first")).
  - reflexivity.
  - reflexivity.
  - right. left. reflexivity.
  - vm_compute. lia.
Defined.

(** *** The emoji map *)

Lemma fold_origin_key (toLowerCase : jsstring -> jsstring)
    (terms lines : list jsstring)
    (m : gmap (list N) (list N)) (t e : jsstring) :
  foldl (emojiStep toLowerCase terms) m lines !! t = Some e ->
  m !! t = Some e \/
  (t <> [] /\
   exists line, In line lines /\
                findOriginal toLowerCase terms (pair_term (parsePair line))
                = Some t /\
                e = pair_definition (parsePair line)).
Proof.
  revert m. induction lines as [|line lines IH]; intros m Hl; [by left |].
  simpl in Hl. apply IH in Hl as [Hl|(Ht & l & Hin & Hf & He)].
  - rewrite emojiStep_lookup in Hl. case_bool_decide as H; [| by left].
    right. destruct H as [H Ht]. injection Hl as <-.
    split; [done |]. exists line. split; [by left | done].
  - right. split; [done |]. exists l. split; [by right | done].
Qed.

(** X16. Every key of the emoji map is one of the original terms, in its
    original spelling, and is not the empty string; its value is the
    trimmed emoji of a line of the answer whose term equals it up to
    case.  Lines of the answer about other terms leave no entry. *)
Theorem emojiMap_keys (toLowerCase : jsstring -> jsstring)
    (terms : list jsstring) (emojiResponse t e : jsstring) :
  emojiMap toLowerCase terms emojiResponse !! t = Some e ->
  In t terms /\ t <> [] /\
  exists line : jsstring,
    In line (colonLines emojiResponse) /\
    toLowerCase (pair_term (parsePair line)) = toLowerCase t /\
    e = pair_definition (parsePair line).
Proof.
  unfold emojiMap. intros Hm.
  apply fold_origin_key in Hm as [Hm|(Ht & line & Hin & Hfind & He)];
    [done |].
  apply findOriginal_Some in Hfind as [Hterm Heq].
  repeat split; [done.. |]. by exists line.
Qed.

Lemma emojiMap_keys_witness :
  In (lit "Cat") [lit "Cat"; lit "Dog"] /\ lit "Cat" <> [] /\
  exists line : jsstring,
    In line (colonLines catDogAnswer) /\
    asciiLower (pair_term (parsePair line)) = asciiLower (lit "Cat") /\
    lit "=^.^=" = pair_definition (parsePair line).
Proof.
  apply (emojiMap_keys asciiLower [lit "Cat"; lit "Dog"] catDogAnswer
                       (lit "Cat") (lit "=^.^=")).
  vm_compute. reflexivity.
Defined.

Lemma find_app_first {A : Type} (P : A -> bool) (l1 l2 : list A) (r : A) :
  (exists y, In y l1 /\ P y = true) ->
  List.find P (l1 ++ l2) = Some r -> In r l1.
Proof.
  induction l1 as [|x l1 IH]; intros (y & Hy & HP); [done |].
  simpl. destruct (P x) eqn:E.
  - intros [= <-]. by left.
  - intros Hfind. right. apply IH; [| done].
    destruct Hy as [<-|Hy]; [congruence |]. by exists y.
Qed.

(** X17. When two original terms differ only by case, the later one
    never gets an emoji from the answer: its record has the fallback
    emoji, whatever the answer says (the spelling of the later term not
    occurring before it). *)
Theorem later_case_twin_gets_fallback (toLowerCase : jsstring -> jsstring)
    (before mid after : list TermDef) (p q : TermDef)
    (emojiResponse : jsstring) :
  toLowerCase (pair_term p) = toLowerCase (pair_term q) ->
  (forall r, In r (before ++ p :: mid) -> pair_term r <> pair_term q) ->
  keyValueCards toLowerCase (before ++ p :: mid ++ q :: after) emojiResponse
    !! length (before ++ p :: mid)
  = Some {| emoji := fallbackEmoji; term := pair_term q;
            definition := pair_definition q |}.
Proof.
  intros Hcase Hfresh. unfold keyValueCards.
  replace (before ++ p :: mid ++ q :: after)
    with ((before ++ p :: mid) ++ q :: after)
    by (by rewrite <- app_assoc).
  set (front := before ++ p :: mid) in *.
  rewrite (map_app _ front). simpl.
  rewrite <- (length_map
                (fun pair =>
                   {| emoji :=
                        emojiOr
                          (emojiMap toLowerCase
                             (List.map pair_term (front ++ q :: after))
                             emojiResponse) (pair_term pair);
                      term := pair_term pair;
                      definition := pair_definition pair |}) front) at 1.
  rewrite list_lookup_middle by done. do 2 f_equal.
  unfold emojiOr.
  destruct (emojiMap _ _ _ !! pair_term q) as [e|] eqn:E; [| done].
  exfalso. unfold emojiMap in E.
  apply fold_origin in E as [E|(line & _ & Hfind & _)]; [done |].
  pose proof Hfind as Hsome. apply findOriginal_Some in Hsome as [_ Heq].
  unfold findOriginal in Hfind. rewrite map_app in Hfind.
  apply find_app_first in Hfind.
  - apply in_map_iff in Hfind as (r & Hr & Hin). by apply (Hfresh r).
  - exists (pair_term p). split.
    + apply in_map. unfold front. apply in_or_app. right. by left.
    + apply bool_decide_eq_true. congruence.
Qed.

Lemma later_case_twin_gets_fallback_witness :
  keyValueCards asciiLower
    ([] ++ parsePair (lit "Cat: a feline")
        :: [] ++ parsePair (lit "cat: the same animal") :: [])
    caseTwinsAnswer
    !! length ([] ++ parsePair (lit "Cat: a feline") :: [])
  = Some {| emoji := fallbackEmoji;
            term := pair_term (parsePair (lit "cat: the same animal"));
            definition :=
              pair_definition (parsePair (lit "cat: the same animal")) |}.
Proof.
  apply (later_case_twin_gets_fallback asciiLower [] [] []
           (parsePair (lit "Cat: a feline"))
           (parsePair (lit "cat: the same animal")) caseTwinsAnswer).
  - reflexivity.
  - intros r [<-|[]]. vm_compute. discriminate.
Defined.

(** *** The choice between the two paths *)

Lemma nonBlank_cons_white (c : N) (s : jsstring) :
  isWhiteSpace c = true ->
  length (nonBlankLines (c :: s)) = length (nonBlankLines s).
Proof.
  intros Hc. unfold nonBlankLines.
  destruct (N.eq_dec c newline) as [->|Hnl]; [done |].
  rewrite split_cons_other by done.
  pose proof (split_not_nil newline s) as Hne.
  destruct (split newline s) as [|p ps]; [done |].
  replace (drop 1 (p :: ps)) with ps by done.
  cbn [first hd List.filter]. rewrite trim_cons_white by done.
  by destruct (nonEmpty (trim p)).
Qed.

Lemma nonBlank_snoc_white (c : N) (s : jsstring) :
  isWhiteSpace c = true ->
  length (nonBlankLines (s ++ [c])) = length (nonBlankLines s).
Proof.
  intros Hc. unfold nonBlankLines.
  destruct (N.eq_dec c newline) as [->|Hnl].
  - rewrite split_snoc_sep, List.filter_app. simpl. by rewrite app_nil_r.
  - destruct (split_snoc_other newline c s Hnl) as (parts & p & -> & ->).
    rewrite !List.filter_app, !length_app. f_equal. cbn [List.filter].
    rewrite trim_snoc_white by done. by destruct (nonEmpty (trim p)).
Qed.

Lemma nonBlank_trim (input : jsstring) :
  length (nonBlankLines (trim input)) = length (nonBlankLines input).
Proof.
  destruct (trim_spec input) as (l & r & Heq & Hl & Hr & _).
  rewrite Heq at 2. clear Heq.
  induction Hl as [|c l Hc _ IH]; simpl.
  - induction r as [|c r IH] using rev_ind; [by rewrite app_nil_r |].
    apply Forall_app in Hr as [Hr Hc]. apply Forall_inv in Hc.
    rewrite app_assoc, nonBlank_snoc_white by done. by apply IH.
  - by rewrite nonBlank_cons_white.
Qed.

Lemma newline_white : isWhiteSpace newline = true.
Proof. reflexivity. Qed.

(** A text that neither starts nor ends with white space has a line feed
    exactly when it has two non-blank lines or more. *)
Lemma newline_two_lines (t : jsstring) :
  (forall c rest, t = c :: rest -> isWhiteSpace c = false) ->
  (forall c rest, t = rest ++ [c] -> isWhiteSpace c = false) ->
  In newline t <-> (2 <= length (nonBlankLines t))%nat.
Proof.
  intros Hhd Hlast. split.
  - intros Hin.
    destruct (first_separator newline t Hin) as (a & b & -> & Hnot).
    unfold nonBlankLines. rewrite split_first by done.
    destruct a as [|c a].
    { specialize (Hhd newline b eq_refl). by rewrite newline_white in Hhd. }
    pose proof (Hhd c (a ++ newline :: b) eq_refl) as Hc.
    destruct b as [|d b _] using rev_ind.
    { specialize (Hlast newline (c :: a) eq_refl).
      by rewrite newline_white in Hlast. }
    assert (isWhiteSpace d = false) as Hd.
    { apply (Hlast d ((c :: a) ++ newline :: b)).
      by rewrite <- !app_assoc. }
    assert (d <> newline) as Hdn
        by (intros ->; by rewrite newline_white in Hd).
    destruct (In_split d newline (b ++ [d]) Hdn) as (p & Hp & Hbp).
    { apply in_or_app. right. by left. }
    cbn [List.filter].
    rewrite (nonEmpty_trim c (c :: a)) by (done || by left).
    assert (In p (List.filter (fun line => nonEmpty (trim line))
                              (split newline (b ++ [d])))) as Hq.
    { apply filter_In. split; [done |]. by apply (nonEmpty_trim d). }
    destruct (List.filter _ (split newline (b ++ [d]))); [done |].
    simpl. lia.
  - intros Hlen. destruct (includes newline t) eqn:E;
      [by apply includes_In |].
    apply includes_false in E. unfold nonBlankLines in Hlen.
    rewrite (split_none newline t E) in Hlen. simpl in Hlen.
    destruct (nonEmpty (trim t)); simpl in Hlen; lia.
Qed.

(** X18. The key-value path is taken exactly when the text of the input
    box has a colon and at least two non-blank lines: one "Term:
    Definition" line, even followed by line feeds, is sent to the
    service as a free-form topic. *)
Theorem key_value_mode_iff (input : jsstring) :
  isKeyValueInput (trim input) = true <->
  In colon input /\ (2 <= length (nonBlankLines input))%nat.
Proof.
  destruct (trim_spec input) as (l & r & _ & _ & _ & Hhd & Hlast).
  unfold isKeyValueInput.
  rewrite andb_true_iff, !includes_In, <- nonBlank_trim.
  rewrite (newline_two_lines (trim input)) by done.
  split; intros [Hc Hn]; (split; [| done]).
  - by apply trim_incl.
  - by apply trim_keeps; [apply colon_not_white |].
Qed.

Lemma key_value_mode_iff_witness :
  isKeyValueInput (trim catDogInput) = true /\
  isKeyValueInput (trim oneLineInput) = false.
Proof.
  split.
  - apply (key_value_mode_iff catDogInput). split.
    + right. right. right. left. reflexivity.
    + vm_compute. lia.
  - destruct (isKeyValueInput (trim oneLineInput)) eqn:E; [| done].
    apply (key_value_mode_iff oneLineInput) in E as [_ Hlen].
    vm_compute in Hlen. lia.
Defined.

End ParserProps.
